(** * Field arrays of vue-composable-form: a shallow embedding of
    [packages/core/src/composable/useFieldArray.ts]

    The controller keeps two parallel JavaScript arrays: the raw values,
    owned by the form context, and the entry list [fields], owned by the
    controller.  Every mutator computes a new value array, hands it to the
    form context through [setFieldArrayValue], and then publishes a new
    entry list.

    Modelling conventions.
    - A JavaScript array is a [list]; reading past the end gives
      [undefined], writing past the end extends the array, the fresh slots
      reading as [undefined] (holes and [undefined] slots are not told
      apart; the value arrays handled here never get holes, every write
      to them being guarded by [in]).  A list has no holes: the array the
      form context holds at the path of the field array is taken to be
      one without holes (on a sparse array [in] is false at a hole and
      [map] skips it).  Indices are exact below [2^32 - 1], the bound
      of JavaScript's array indices.
    - An index of TypeScript type [number] is an integer [Z].  [remove]
      takes [index?: number], an [option Z].
    - [seed] and the keys are natural numbers; the model covers the range
      in which a JavaScript number counts exactly.
    - The reactive [computed] members of an entry are functions of the
      current state: an entry stores what its closure captures, the key and
      the creation-time value.
    - The form context ([useFormContext]) is not among the sources; its
      three functions used here are modelled from their description. *)

From Stdlib Require Import ZArith Lia DecimalString DecimalZ.
From stdpp Require Import base option list strings.

Local Open Scope Z_scope.

(** ** JavaScript arrays *)

Module JsArray.
Section Ops.
Context {T : Type} (undef : T).

(** [i in data] for an integer [i] and an array without holes. *)
Definition has_index (i : Z) (data : list T) : bool :=
  (0 <=? i) && (i <? Z.of_nat (length data)).

(** [data[i]]. *)
Definition get (data : list T) (i : Z) : T :=
  if i <? 0 then undef else default undef (data !! Z.to_nat i).

(** [data[i] = v].  A negative [i] names a property that is not an
    element: the elements stay as they are.  Exact for [i < 2^32 - 1];
    from there on JavaScript too stores a plain property, and every use
    by the controller is below, being guarded by [in]. *)
Definition set (data : list T) (i : Z) (v : T) : list T :=
  if i <? 0 then data
  else
    let n := Z.to_nat i in
    if (n <? length data)%nat then <[n := v]> data
    else data ++ replicate (n - length data)%nat undef ++ [v].

(** The relative index of [splice] and [slice]: counted from the end
    when negative, clamped to [0 .. len]. *)
Definition rel_index (len : nat) (i : Z) : nat :=
  if i <? 0 then Z.to_nat (Z.max (Z.of_nat len + i) 0)
  else Z.to_nat (Z.min i (Z.of_nat len)).

(** [data.splice(start, deleteCount, ...items)]: the removed elements
    and the array after the call. *)
Definition splice (data : list T) (start : Z) (deleteCount : nat)
    (items : list T) : list T * list T :=
  let s := rel_index (length data) start in
  let d := Nat.min deleteCount (length data - s) in
  (take d (drop s data), take s data ++ items ++ drop (s + d) data).

(** [data.slice(start, end)] and [data.slice(start)]. *)
Definition slice (data : list T) (start : Z) (end_ : option Z) : list T :=
  let k := rel_index (length data) start in
  let final := match end_ with
               | Some e => rel_index (length data) e
               | None => length data
               end in
  take (final - k) (drop k data).
End Ops.
End JsArray.

(** ** The array transforms (lines 41-74) *)

Section Transforms.
Context {T : Type} (undef : T).

Definition appendAt (data : list T) (value : T) : list T :=
  data ++ [value].

Definition prependAt (data : list T) (value : T) : list T :=
  value :: data.

(** [data[indexA] = [data[indexB], (data[indexB] = data[indexA])][0]]:
    the old [data[indexB]] is read, [data[indexB]] is overwritten with
    [data[indexA]], and the old [data[indexB]] is stored at [indexA]. *)
Definition swapAt (data : list T) (indexA indexB : Z) : list T :=
  let oldB := JsArray.get undef data indexB in
  let data1 := JsArray.set undef data indexB (JsArray.get undef data indexA) in
  JsArray.set undef data1 indexA oldB.

Definition removeAt (data : list T) (index : option Z) : list T :=
  match index with
  | None => []
  | Some i => snd (JsArray.splice data i 1 [])
  end.

(** [data.splice(to, 0, data.splice(from, 1)[0])]. *)
Definition moveAt (data : list T) (from to : Z) : list T :=
  let '(removed, data1) := JsArray.splice data from 1 [] in
  snd (JsArray.splice data1 to 0 [JsArray.get undef removed 0]).

Definition insertAt (data : list T) (index : Z) (value : T) : list T :=
  JsArray.slice data 0 (Some index) ++ [value] ++ JsArray.slice data index None.

Definition updateAt (data : list T) (index : Z) (value : T) : list T :=
  JsArray.set undef data index value.
End Transforms.

(** ** The controller state *)

(** What a JavaScript call leaves behind: a value, or a thrown error. *)
Inductive JsError := TypeError.

Inductive completion (A : Type) :=
| Normal (a : A)
| Throw (e : JsError).
Arguments Normal {A} a.
Arguments Throw {A} e.

(** The function handed to [setFieldArrayValue] as [transformFn]. *)
Inductive Transform :=
| FnAppendAt | FnPrependAt | FnRemoveAt | FnSwapAt
| FnMoveAt | FnInsertAt | FnUpdateAt | FnIdentity.

(** The [transformArgs] object; a member that is absent or [undefined]
    is [None]. *)
Record TransformArgs := { argA : option Z; argB : option Z }.

(** [`${name}.${index}`]. *)
Definition string_of_index (i : Z) : string :=
  NilZero.string_of_int (Z.to_int i).

Definition field_path (name : string) (i : Z) : string :=
  name +:+ "." +:+ string_of_index i.

Fixpoint strip_prefix (p s : string) : option string :=
  match p, s with
  | EmptyString, _ => Some s
  | String c p', String d s' =>
      if Ascii.eqb c d then strip_prefix p' s' else None
  | String _ _, EmptyString => None
  end.

(** The index a dotted path addresses below the array [name], if any. *)
Definition index_of_path (name path : string) : option Z :=
  match strip_prefix (name +:+ ".") path with
  | Some rest => Z.of_int <$> NilZero.int_of_string rest
  | None => None
  end.

Section FieldArray.
Context {Value : Type} (undefined : Value).

(** An entry (lines 106-137): [key] is a plain member, never assigned
    after creation; [captured] is the [value] parameter of [createEntry],
    which the getter closes over.  The other members are computed. *)
Record FieldEntry := { key : nat; captured : Value }.

(** The calls the form context receives.  [shouldRevalidate] is [None]
    when the caller leaves the fifth argument out. *)
Inductive StoreCall :=
| RegisterFieldArray (path : string)
| SetFieldArrayValue (path : string) (newSequence : list Value)
    (transformFn : Transform) (transformArgs : TransformArgs)
    (shouldRevalidate : option bool)
| SetFieldValue (path : string) (v : Value).

(** [name], [fields] and [seed] are the closure variables of
    [useFieldArray]; [values] is [getFieldValue(name).value], held by the
    form context; [calls] lists the calls the form context has received,
    oldest first.  A slot of [fields] that reads [undefined] is [None]. *)
Record State := {
  name : string;
  values : list Value;
  calls : list StoreCall;
  fields : list (option FieldEntry);
  seed : nat
}.

(** Code that reads and writes the state and may throw; what was written
    before a throw stays written. *)
Definition M (A : Type) : Type := State -> completion A * State.

Definition ret {A} (a : A) : M A := fun st => (Normal a, st).

Definition throw {A} (e : JsError) : M A := fun st => (Throw e, st).

Definition bind {A B} (m : M A) (k : A -> M B) : M B :=
  fun st =>
    match m st with
    | (Normal a, st') => k a st'
    | (Throw e, st') => (Throw e, st')
    end.

Notation "x <~ m ;; k" := (bind m (fun x => k))
  (at level 100, m at next level, right associativity).
Notation "m ;;; k" := (bind m (fun _ => k))
  (at level 100, right associativity).

Definition get_name : M string := fun st => (Normal (name st), st).

Definition get_values : M (list Value) := fun st => (Normal (values st), st).

Definition get_fields : M (list (option FieldEntry)) :=
  fun st => (Normal (fields st), st).

Definition put_fields (fs : list (option FieldEntry)) : M unit :=
  fun st =>
    (Normal tt,
     {| name := name st; values := values st; calls := calls st;
        fields := fs; seed := seed st |}).

(** [seed++]. *)
Definition next_seed : M nat :=
  fun st =>
    (Normal (seed st),
     {| name := name st; values := values st; calls := calls st;
        fields := fields st; seed := S (seed st) |}).

(** ** The form context *)

(** Modelled from the spec: [useFormContext] is not part of the sources.
    [setFieldArrayValue(name, newSequence, transformFn, transformArgs,
    shouldRevalidate = true)] commits a structural edit: the sequence it
    is given becomes the value at [name], unchanged. *)
Definition setFieldArrayValue (path : string) (newSequence : list Value)
    (fn : Transform) (args : TransformArgs) (shouldRevalidate : option bool)
    : M unit :=
  fun st =>
    (Normal tt,
     {| name := name st;
        values := if decide (path = name st) then newSequence else values st;
        calls := calls st ++
                 [SetFieldArrayValue path newSequence fn args shouldRevalidate];
        fields := fields st; seed := seed st |}).

(** Modelled from the spec: the default of the fifth parameter of
    [setFieldArrayValue] is [true]. *)
Definition revalidates (c : StoreCall) : option bool :=
  match c with
  | SetFieldArrayValue _ _ _ _ flag => Some (default true flag)
  | _ => None
  end.

(** Modelled from the spec: [setFieldValue(path, value)] is a point
    write; below the array it is the assignment [values[i] = value]. *)
Definition setFieldValue (path : string) (v : Value) : M unit :=
  fun st =>
    (Normal tt,
     {| name := name st;
        values := match index_of_path (name st) path with
                  | Some i => JsArray.set undefined (values st) i v
                  | None => values st
                  end;
        calls := calls st ++ [SetFieldValue path v];
        fields := fields st; seed := seed st |}).

Definition registerFieldArray (path : string) : M unit :=
  fun st =>
    (Normal tt,
     {| name := name st; values := values st;
        calls := calls st ++ [RegisterFieldArray path];
        fields := fields st; seed := seed st |}).

(** ** Entry projection (lines 99-138) *)

(** [fields.value.findIndex((field) => field.key === key)], the scan
    having reached position [i].  Reading [key] of a slot that is
    [undefined] throws. *)
Fixpoint findIndex_key (k : nat) (fs : list (option FieldEntry)) (i : Z)
    : completion Z :=
  match fs with
  | [] => Normal (-1)
  | None :: _ => Throw TypeError
  | Some field :: rest =>
      if Nat.eqb (key field) k then Normal i
      else findIndex_key k rest (i + 1)
  end.

(** The computed [index] of an entry. *)
Definition entry_index (e : FieldEntry) : M Z :=
  fun st => (findIndex_key (key e) (fields st) 0, st).

(** The getter of [value] (lines 109-111). *)
Definition entry_value (e : FieldEntry) : M Value :=
  index <~ entry_index e ;;
  if index =? -1 then ret (captured e)
  else vs <~ get_values ;; ret (JsArray.get undefined vs index).

(** The setter of [value] (lines 112-115). *)
Definition set_entry_value (e : FieldEntry) (v : Value) : M unit :=
  index <~ entry_index e ;;
  if index =? -1 then ret tt
  else n <~ get_name ;; setFieldValue (field_path n index) v.

(** The computed [name] (lines 118-120). *)
Definition entry_name (e : FieldEntry) : M string :=
  index <~ entry_index e ;;
  n <~ get_name ;;
  ret (field_path n index).

Definition createEntry (value : Value) : M FieldEntry :=
  k <~ next_seed ;;
  ret {| key := k; captured := value |}.

(** [vs.map(createEntry)], for an array [vs] without holes: one entry per
    slot ([map] would skip a hole). *)
Fixpoint map_createEntry (vs : list Value) : M (list (option FieldEntry)) :=
  match vs with
  | [] => ret []
  | v :: rest =>
      e <~ createEntry v ;;
      es <~ map_createEntry rest ;;
      ret (Some e :: es)
  end.

(** ** The controller (lines 94-97 and 140-251) *)

Definition reset : M unit :=
  vs <~ get_values ;;
  es <~ map_createEntry vs ;;
  put_fields es.

Definition append (value : Value) : M unit :=
  n <~ get_name ;;
  vs <~ get_values ;;
  setFieldArrayValue n (appendAt vs value) FnAppendAt
    {| argA := None; argB := None |} None ;;;
  e <~ createEntry value ;;
  fs <~ get_fields ;;
  put_fields (fs ++ [Some e]).

Definition prepend (value : Value) : M unit :=
  n <~ get_name ;;
  vs <~ get_values ;;
  setFieldArrayValue n (prependAt vs value) FnPrependAt
    {| argA := None; argB := None |} None ;;;
  e <~ createEntry value ;;
  fs <~ get_fields ;;
  put_fields (Some e :: fs).

Definition remove (index : option Z) : M unit :=
  n <~ get_name ;;
  vs <~ get_values ;;
  fs <~ get_fields ;;
  let cloneValues := removeAt vs index in
  let cloneField := removeAt fs index in
  setFieldArrayValue n cloneValues FnRemoveAt
    {| argA := index; argB := None |} None ;;;
  put_fields cloneField.

Definition swap (indexA indexB : Z) : M unit :=
  n <~ get_name ;;
  vs <~ get_values ;;
  if negb (JsArray.has_index indexA vs) || negb (JsArray.has_index indexB vs)
  then ret tt
  else
    fs <~ get_fields ;;
    let cloneValues := swapAt undefined vs indexA indexB in
    let cloneField := swapAt None fs indexA indexB in
    setFieldArrayValue n cloneValues FnSwapAt
      {| argA := Some indexA; argB := Some indexB |} (Some false) ;;;
    put_fields cloneField.

Definition move (from to : Z) : M unit :=
  n <~ get_name ;;
  vs <~ get_values ;;
  if negb (JsArray.has_index from vs) then ret tt
  else
    fs <~ get_fields ;;
    let cloneValues := moveAt undefined vs from to in
    let cloneField := moveAt None fs from to in
    setFieldArrayValue n cloneValues FnMoveAt
      {| argA := Some from; argB := Some to |} (Some false) ;;;
    put_fields cloneField.

Definition insert (index : Z) (value : Value) : M unit :=
  n <~ get_name ;;
  vs <~ get_values ;;
  fs <~ get_fields ;;
  let cloneValues := insertAt vs index value in
  e <~ createEntry value ;;
  let cloneField := insertAt fs index (Some e) in
  setFieldArrayValue n cloneValues FnInsertAt
    {| argA := Some index; argB := None |} None ;;;
  put_fields cloneField.

(** The last statement, [fields.value[index].value = value], runs the
    setter of the entry at [index]; it throws when that slot is
    [undefined]. *)
Definition update (index : Z) (value : Value) : M unit :=
  n <~ get_name ;;
  vs <~ get_values ;;
  if negb (JsArray.has_index index vs) then ret tt
  else
    let cloneValue := updateAt undefined vs index value in
    setFieldArrayValue n cloneValue FnUpdateAt
      {| argA := Some index; argB := None |} None ;;;
    fs <~ get_fields ;;
    match JsArray.get None fs index with
    | Some e => set_entry_value e value
    | None => throw TypeError
    end.

Definition replace (vals : list Value) : M unit :=
  n <~ get_name ;;
  let cloneValues := vals in
  setFieldArrayValue n cloneValues FnIdentity
    {| argA := None; argB := None |} None ;;;
  es <~ map_createEntry cloneValues ;;
  put_fields es.

(** [useFieldArray(name)] over a form context whose value at [name] is
    the array [vs], which has no holes: the state once the call has
    returned. *)
Definition useFieldArray (n : string) (vs : list Value) : State :=
  snd ((registerFieldArray n ;;; reset)
         {| name := n; values := vs; calls := []; fields := []; seed := 0 |}).

(** The eight mutators returned by [useFieldArray]. *)
Inductive Mutator :=
| Append (value : Value)
| Prepend (value : Value)
| Swap (indexA indexB : Z)
| Remove (index : option Z)
| Move (from to : Z)
| Insert (index : Z) (value : Value)
| Update (index : Z) (value : Value)
| Replace (vals : list Value).

Definition call (m : Mutator) : M unit :=
  match m with
  | Append v => append v
  | Prepend v => prepend v
  | Swap a b => swap a b
  | Remove i => remove i
  | Move f t => move f t
  | Insert i v => insert i v
  | Update i v => update i v
  | Replace vs => replace vs
  end.

(** The state a call leaves. *)
Definition after (m : Mutator) (st : State) : State := snd (call m st).

(** Calls made one after the other. *)
Definition after_all (ms : list Mutator) (st : State) : State :=
  foldl (fun s m => after m s) st ms.

(** ** Notions used to state the properties *)

(** The entries of an entry list, its [undefined] slots left out, and
    their keys, in order. *)
Definition entries (fs : list (option FieldEntry)) : list FieldEntry :=
  omap id fs.

Definition keys (st : State) : list nat := key <$> entries (fields st).

(** The entries [createEntry] makes for [vs] when the counter is at [k]. *)
Fixpoint entries_from (k : nat) (vs : list Value) : list (option FieldEntry) :=
  match vs with
  | [] => []
  | v :: rest => Some {| key := k; captured := v |} :: entries_from (S k) rest
  end.

(** The invariant of the controller: one entry per value, no two entries
    with the same key, every key below the counter. *)
Definition consistent (st : State) : Prop :=
  length (values st) = length (fields st)
  /\ Forall is_Some (fields st)
  /\ NoDup (keys st)
  /\ Forall (fun k => (k < seed st)%nat) (keys st).

#[global] Instance consistent_dec (st : State) : Decision (consistent st).
Proof. unfold consistent. apply _. Defined.

(** The commits among the calls received by the form context. *)
Definition is_commit (c : StoreCall) : bool :=
  match c with
  | SetFieldArrayValue _ _ _ _ _ => true
  | _ => false
  end.

(** The index check at the head of [swap], [move] and [update]; the
    other mutators have none. *)
Definition accepts (m : Mutator) (st : State) : bool :=
  match m with
  | Swap a b =>
      JsArray.has_index a (values st) && JsArray.has_index b (values st)
  | Move from _ => JsArray.has_index from (values st)
  | Update i _ => JsArray.has_index i (values st)
  | _ => true
  end.

(** A mutator that only reorders. *)
Definition reorders (m : Mutator) : bool :=
  match m with
  | Swap _ _ | Move _ _ => true
  | _ => false
  end.

End FieldArray.

(** The form of the documentation of [useFieldArray], whose values are
    strings or [undefined]:
    [foods: ['Bubble Tea', 'Stinky Tofu', 'Scallion Pancake']]. *)
Definition foods : @State (option string) :=
  useFieldArray "foods"
    [Some "Bubble Tea"; Some "Stinky Tofu"; Some "Scallion Pancake"].

(** ** What a user of the controller can do *)

Section Events.
Context {Value : Type} (undefined : Value).

(** Besides calling a mutator, a user can assign to the [value] of an
    entry it holds (line 112), be the entry still in the list or not, and
    the form context can call the [reset] it was registered with
    (line 248). *)
Inductive Event :=
| Call (m : @Mutator Value)
| Reset
| Write (e : @FieldEntry Value) (v : Value).

Definition run (ev : Event) : @M Value unit :=
  match ev with
  | Call m => call undefined m
  | Reset => reset
  | Write e v => set_entry_value undefined e v
  end.

(** Events one after the other, up to the first that throws. *)
Fixpoint run_all (evs : list Event) (st : @State Value)
    : completion unit * @State Value :=
  match evs with
  | [] => (Normal tt, st)
  | ev :: rest =>
      match run ev st with
      | (Normal _, st') => run_all rest st'
      | (Throw err, st') => (Throw err, st')
      end
  end.

(** The values and the slots of the entry list, position by position. *)
Definition rows (st : @State Value)
    : list (Value * option (@FieldEntry Value)) :=
  zip (values st) (fields st).

End Events.

(** * The transforms on small arrays *)

Example swapAt_abc : swapAt "?" ["a"; "b"; "c"] 0 2 = ["c"; "b"; "a"].
Proof. reflexivity. Qed.

Example swapAt_grows : swapAt "?" ["a"] 0 2 = ["?"; "?"; "a"].
Proof. reflexivity. Qed.

Example moveAt_abc : moveAt "?" ["a"; "b"; "c"] 0 2 = ["b"; "c"; "a"].
Proof. reflexivity. Qed.

Example moveAt_clamps : moveAt "?" ["a"; "b"; "c"] 0 7 = ["b"; "c"; "a"].
Proof. reflexivity. Qed.

Example removeAt_past_end : removeAt ["a"; "b"; "c"] (Some 5) = ["a"; "b"; "c"].
Proof. reflexivity. Qed.

Example removeAt_from_end : removeAt ["a"; "b"; "c"] (Some (-1)) = ["a"; "b"].
Proof. reflexivity. Qed.

Example insertAt_from_end : insertAt ["a"; "b"; "c"] (-1) "v" = ["a"; "b"; "v"; "c"].
Proof. reflexivity. Qed.

(** * Facts about the arrays and the transforms *)

Section ArrayFacts.
Context {T : Type} (undef : T).
Implicit Types (data : list T) (i : Z).

Lemma has_index_spec i data :
  JsArray.has_index i data = true <-> 0 <= i < Z.of_nat (length data).
Proof.
  unfold JsArray.has_index. rewrite andb_true_iff, Z.leb_le, Z.ltb_lt. tauto.
Qed.

Lemma has_index_false i data :
  JsArray.has_index i data = false <-> i < 0 \/ Z.of_nat (length data) <= i.
Proof.
  unfold JsArray.has_index. rewrite andb_false_iff, Z.leb_gt, Z.ltb_ge. tauto.
Qed.

Lemma rel_index_le len i : (JsArray.rel_index len i <= len)%nat.
Proof. unfold JsArray.rel_index. destruct (Z.ltb_spec i 0); lia. Qed.

Lemma rel_index_has i data :
  JsArray.has_index i data = true ->
  JsArray.rel_index (length data) i = Z.to_nat i.
Proof.
  rewrite has_index_spec. intros H. unfold JsArray.rel_index.
  destruct (Z.ltb_spec i 0); lia.
Qed.

Lemma rel_index_past len i :
  Z.of_nat len <= i -> JsArray.rel_index len i = len.
Proof. intros H. unfold JsArray.rel_index. destruct (Z.ltb_spec i 0); lia. Qed.

Lemma rel_index_from_end len i :
  - Z.of_nat len <= i <= -1 ->
  JsArray.rel_index len i = Z.to_nat (Z.of_nat len + i).
Proof. intros H. unfold JsArray.rel_index. destruct (Z.ltb_spec i 0); lia. Qed.

Lemma get_has i data :
  JsArray.has_index i data = true ->
  data !! Z.to_nat i = Some (JsArray.get undef data i).
Proof.
  rewrite has_index_spec. intros H. unfold JsArray.get.
  destruct (Z.ltb_spec i 0); [lia|].
  destruct (lookup_lt_is_Some_2 data (Z.to_nat i)) as [x Hx]; [lia|].
  by rewrite Hx.
Qed.

Lemma set_has i data v :
  JsArray.has_index i data = true ->
  JsArray.set undef data i v = <[Z.to_nat i := v]> data.
Proof.
  rewrite has_index_spec. intros H. unfold JsArray.set.
  destruct (Z.ltb_spec i 0); [lia|].
  destruct (Nat.ltb_spec (Z.to_nat i) (length data)); [done | lia].
Qed.

Lemma length_set i data v :
  JsArray.has_index i data = true ->
  length (JsArray.set undef data i v) = length data.
Proof. intros H. rewrite set_has by done. apply length_insert. Qed.

Lemma has_index_length {U} i data (other : list U) :
  length data = length other ->
  JsArray.has_index i data = JsArray.has_index i other.
Proof. unfold JsArray.has_index. by intros ->. Qed.

Lemma get_set_eq i data v :
  0 <= i -> JsArray.get undef (JsArray.set undef data i v) i = v.
Proof.
  intros H. unfold JsArray.get, JsArray.set.
  destruct (Z.ltb_spec i 0); [lia|].
  destruct (Nat.ltb_spec (Z.to_nat i) (length data)).
  - by rewrite list_lookup_insert_eq.
  - rewrite lookup_app_r by done.
    rewrite lookup_app_r by (rewrite length_replicate; lia).
    rewrite length_replicate.
    by replace (_ - _ - _)%nat with 0%nat by lia.
Qed.

Lemma get_set_ne i j data v :
  i <> j -> JsArray.get undef (JsArray.set undef data i v) j
            = JsArray.get undef data j.
Proof.
  intros Hne. unfold JsArray.get, JsArray.set.
  destruct (Z.ltb_spec j 0); [done|].
  destruct (Z.ltb_spec i 0); [done|].
  destruct (Nat.ltb_spec (Z.to_nat i) (length data)).
  - rewrite list_lookup_insert_ne by lia. done.
  - destruct (Nat.lt_ge_cases (Z.to_nat j) (length data)).
    + by rewrite lookup_app_l.
    + rewrite lookup_app_r by done.
      rewrite (lookup_ge_None_2 data) by done.
      destruct (Nat.lt_ge_cases (Z.to_nat j) (Z.to_nat i)).
      * rewrite lookup_app_l by (rewrite length_replicate; lia).
        rewrite lookup_replicate_2 by lia. done.
      * rewrite lookup_app_r by (rewrite length_replicate; lia).
        rewrite length_replicate.
        rewrite lookup_ge_None_2; [done | simpl; lia].
Qed.

Lemma length_swapAt data a b :
  JsArray.has_index a data = true -> JsArray.has_index b data = true ->
  length (swapAt undef data a b) = length data.
Proof.
  intros Ha Hb. unfold swapAt.
  rewrite length_set; rewrite ?length_set; try done.
  rewrite <- Ha. apply has_index_length. by rewrite length_set.
Qed.

(** What [splice(i, 1)] leaves. *)
Lemma removeAt_Some data i :
  let s := JsArray.rel_index (length data) i in
  removeAt data (Some i) = take s data ++ drop (s + Nat.min 1 (length data - s)) data.
Proof. reflexivity. Qed.

Lemma length_removeAt data i :
  length (removeAt data (Some i))
  = (length data - Nat.min 1 (length data - JsArray.rel_index (length data) i))%nat.
Proof.
  rewrite removeAt_Some. cbv zeta.
  pose proof (rel_index_le (length data) i).
  rewrite length_app, length_take, length_drop. lia.
Qed.

Lemma removeAt_delete data i :
  removeAt data (Some i) = delete (JsArray.rel_index (length data) i) data.
Proof.
  rewrite removeAt_Some. cbv zeta.
  pose proof (rel_index_le (length data) i) as Hle.
  generalize dependent (JsArray.rel_index (length data) i). intros s Hle.
  destruct (decide (s = length data)) as [->|Hne].
  - rewrite Nat.sub_diag, Nat.min_0_r, Nat.add_0_r.
    rewrite delete_take_drop. by rewrite !drop_ge by lia.
  - replace (Nat.min 1 (length data - s)) with 1%nat by lia.
    rewrite delete_take_drop. f_equal. f_equal. lia.
Qed.

Lemma splice_one data i :
  JsArray.has_index i data = true ->
  JsArray.splice data i 1 []
  = ([JsArray.get undef data i], delete (Z.to_nat i) data).
Proof.
  intros Hi. pose proof (get_has _ _ Hi) as Hget.
  pose proof (proj1 (has_index_spec _ _) Hi) as Hr.
  unfold JsArray.splice. rewrite (rel_index_has _ _ Hi).
  replace (Nat.min 1 _) with 1%nat by lia.
  rewrite app_nil_l, delete_take_drop, Nat.add_1_r. f_equal.
  rewrite (drop_S _ _ _ Hget). simpl. by rewrite take_0.
Qed.

Lemma splice_insert data i x :
  let t := JsArray.rel_index (length data) i in
  snd (JsArray.splice data i 0 [x]) = take t data ++ x :: drop t data.
Proof. unfold JsArray.splice. simpl. by rewrite Nat.add_0_r. Qed.

Lemma moveAt_has data from to :
  JsArray.has_index from data = true ->
  let rest := delete (Z.to_nat from) data in
  let t := JsArray.rel_index (length rest) to in
  moveAt undef data from to
  = take t rest ++ JsArray.get undef data from :: drop t rest.
Proof.
  intros Hf. unfold moveAt. rewrite (splice_one _ _ Hf).
  by rewrite splice_insert.
Qed.

Lemma length_moveAt data from to :
  JsArray.has_index from data = true ->
  length (moveAt undef data from to) = length data.
Proof.
  intros Hf. rewrite moveAt_has by done. cbv zeta.
  pose proof (proj1 (has_index_spec _ _) Hf) as Hr.
  rewrite length_app. simpl. rewrite length_take, length_drop.
  pose proof (rel_index_le (length (delete (Z.to_nat from) data)) to).
  rewrite length_delete in * by (apply lookup_lt_is_Some_2; lia). lia.
Qed.

Lemma insertAt_take_drop data i v :
  let k := JsArray.rel_index (length data) i in
  insertAt data i v = take k data ++ v :: drop k data.
Proof.
  unfold insertAt, JsArray.slice. cbv zeta.
  pose proof (rel_index_le (length data) i).
  replace (JsArray.rel_index (length data) 0) with 0%nat
    by (unfold JsArray.rel_index; simpl; lia).
  rewrite drop_0, Nat.sub_0_r. simpl. f_equal. f_equal.
  apply take_ge. rewrite length_drop. lia.
Qed.

Lemma length_insertAt data i v :
  length (insertAt data i v) = S (length data).
Proof.
  rewrite insertAt_take_drop. cbv zeta.
  pose proof (rel_index_le (length data) i).
  rewrite length_app. simpl. rewrite length_take, length_drop. lia.
Qed.

End ArrayFacts.

(** * Facts about entry lists *)

Section EntryFacts.
Context {Value : Type}.
Implicit Types (fs : list (option (@FieldEntry Value))) (e : @FieldEntry Value).

Lemma entries_app fs1 fs2 : entries (fs1 ++ fs2) = entries fs1 ++ entries fs2.
Proof. apply omap_app. Qed.

Lemma entries_replicate_None n : entries (replicate n None) = @nil (@FieldEntry Value).
Proof. induction n; [done | by simpl]. Qed.

Lemma entries_take_drop fs n : entries fs ≡ₚ entries (take n fs) ++ entries (drop n fs).
Proof. by rewrite <- entries_app, take_drop. Qed.

(** Writing a slot moves one entry out and one in. *)
Lemma entries_set fs i slot :
  0 <= i ->
  entries (JsArray.set None fs i slot) ++ entries [JsArray.get None fs i]
  ≡ₚ entries fs ++ entries [slot].
Proof.
  intros Hi. unfold JsArray.set, JsArray.get.
  destruct (Z.ltb_spec i 0); [lia|].
  destruct (Nat.ltb_spec (Z.to_nat i) (length fs)) as [Hlt|Hge].
  - destruct (lookup_lt_is_Some_2 fs _ Hlt) as [old Hold].
    rewrite Hold. simpl default.
    rewrite insert_take_drop by done.
    rewrite (entries_take_drop fs (Z.to_nat i)) at 1.
    rewrite (drop_S _ _ _ Hold).
    change (old :: ?l) with ([old] ++ l).
    change (slot :: ?l) with ([slot] ++ l).
    rewrite !entries_app.
    generalize (entries (take (Z.to_nat i) fs)) (entries [old]) (entries [slot])
      (entries (drop (S (Z.to_nat i)) fs)).
    intros l1 l2 l3 l4. solve_Permutation.
  - rewrite (lookup_ge_None_2 fs) by done. simpl default.
    rewrite !entries_app, entries_replicate_None. simpl.
    by rewrite !app_nil_r.
Qed.

(** [swapAt] at two indices that are not negative keeps the entries. *)
Lemma entries_swapAt fs a b :
  0 <= a -> 0 <= b -> entries (swapAt None fs a b) ≡ₚ entries fs.
Proof.
  intros Ha Hb. unfold swapAt.
  set (x := JsArray.get None fs a). set (y := JsArray.get None fs b).
  pose proof (entries_set (JsArray.set None fs b x) a y Ha) as H1.
  pose proof (entries_set fs b x Hb) as H2. fold y in H2.
  assert (JsArray.get None (JsArray.set None fs b x) a = x) as Hx.
  { destruct (decide (b = a)) as [->|Hne].
    - by apply get_set_eq.
    - by rewrite get_set_ne. }
  rewrite Hx in H1.
  apply (inj (.++ (entries [x] ++ entries [y]))).
  by rewrite app_assoc, H1, H2, <- app_assoc.
Qed.

(** [moveAt] keeps the entries, whatever the indices. *)
Lemma entries_moveAt fs from to :
  entries (moveAt None fs from to) ≡ₚ entries fs.
Proof.
  unfold moveAt, JsArray.splice.
  set (s := JsArray.rel_index (length fs) from).
  set (d := Nat.min 1 (length fs - s)).
  set (removed := take d (drop s fs)).
  set (rest := take s fs ++ [] ++ drop (s + d) fs).
  fold (JsArray.splice rest to 0 [JsArray.get None removed 0]).
  rewrite splice_insert. cbv zeta.
  set (t := JsArray.rel_index (length rest) to).
  change (?x :: ?l) with ([x] ++ l).
  rewrite !entries_app.
  assert (entries [JsArray.get None removed 0] = entries removed) as ->.
  { assert (length removed <= 1)%nat as Hlen
      by (unfold removed; rewrite length_take; lia).
    destruct removed as [|slot [|? ?]]; simpl in *; [done | done | lia]. }
  assert (entries fs ≡ₚ entries removed ++ entries rest) as ->.
  { assert (drop s fs = removed ++ drop (s + d) fs) as Hdrop
      by (unfold removed; by rewrite <- drop_drop, take_drop).
    rewrite (entries_take_drop fs s), Hdrop. unfold rest. simpl.
    rewrite !entries_app.
    generalize (entries (take s fs)) (entries removed)
      (entries (drop (s + d) fs)).
    intros l1 l2 l3. solve_Permutation. }
  rewrite (entries_take_drop rest t).
  generalize (entries (take t rest)) (entries removed) (entries (drop t rest)).
  intros l1 l2 l3. solve_Permutation.
Qed.

(** [removeAt] only lets entries go. *)
Lemma entries_removeAt fs index :
  exists gone, entries fs ≡ₚ gone ++ entries (removeAt fs index).
Proof.
  destruct index as [i|]; [|exists (entries fs); simpl; by rewrite app_nil_r].
  rewrite removeAt_delete.
  destruct (submseteq_Permutation _ _
              (submseteq_delete fs (JsArray.rel_index (length fs) i)))
    as [gone Hgone].
  exists (entries gone). unfold entries.
  etrans; [apply (omap_Permutation id), Hgone|].
  rewrite omap_app. apply (comm (++)).
Qed.

Lemma entries_insertAt fs i e :
  entries (insertAt fs i (Some e)) ≡ₚ e :: entries fs.
Proof.
  rewrite insertAt_take_drop. cbv zeta.
  change (Some e :: ?l) with ([Some e] ++ l).
  rewrite !entries_app. simpl.
  rewrite (entries_take_drop fs (JsArray.rel_index (length fs) i)) at 1.
  by rewrite <- Permutation_middle.
Qed.

Lemma entries_from_length k (vs : list Value) :
  length (entries_from k vs) = length vs.
Proof. revert k. induction vs as [|v vs IH]; intros k; simpl; [done | by rewrite IH]. Qed.

Lemma entries_from_all_Some k (vs : list Value) :
  Forall is_Some (entries_from k vs).
Proof.
  revert k. induction vs as [|v vs IH]; intros k; simpl; constructor; eauto.
Qed.

Lemma entries_from_keys k (vs : list Value) :
  key <$> entries (entries_from k vs) = seq k (length vs).
Proof.
  revert k. induction vs as [|v vs IH]; intros k; simpl; [done|].
  f_equal. apply IH.
Qed.

(** In a list without [undefined] slots and without a repeated key, the
    scan for the key of the entry at position [i] stops at [i]. *)
Lemma findIndex_key_lookup fs (i : nat) e j :
  Forall is_Some fs -> NoDup (key <$> entries fs) ->
  fs !! i = Some (Some e) ->
  findIndex_key (key e) fs j = Normal (j + Z.of_nat i).
Proof.
  intros Hsome. revert i j.
  induction Hsome as [|slot fs [e' ->] _ IH]; intros i j Hnd Hi; [done|].
  simpl in Hnd. apply NoDup_cons in Hnd as [Hnotin Hnd].
  destruct i as [|i]; simpl in *.
  - injection Hi as ->. rewrite Nat.eqb_refl. f_equal. lia.
  - destruct (Nat.eqb_spec (key e') (key e)) as [Heq|Hne].
    + exfalso. apply Hnotin. rewrite Heq.
      apply list_elem_of_fmap_2. apply list_elem_of_omap.
      exists (Some e). split; [|done]. by eapply list_elem_of_lookup_2.
    + rewrite (IH i (j + 1)) by done. f_equal. lia.
Qed.

(** The scan finds nothing, and gives [-1], for a key that no entry of
    the list has. *)
Lemma findIndex_key_absent fs k j :
  Forall is_Some fs -> k ∉ key <$> entries fs ->
  findIndex_key k fs j = Normal (-1).
Proof.
  intros Hsome. revert j.
  induction Hsome as [|slot fs [e' ->] _ IH]; intros j Hk; [done|].
  simpl in *. apply not_elem_of_cons in Hk as [Hne Hk].
  destruct (Nat.eqb_spec (key e') k); [congruence|]. by apply IH.
Qed.

End EntryFacts.

(** * Facts about paths *)

Lemma strip_prefix_app (p s : string) : strip_prefix p (p +:+ s) = Some s.
Proof. induction p as [|c p IH]; simpl; [done|]. by rewrite Ascii.eqb_refl. Qed.

Lemma string_app_assoc (s1 s2 s3 : string) :
  (s1 +:+ s2) +:+ s3 = s1 +:+ (s2 +:+ s3).
Proof.
  induction s1 as [|c s1 IH]; [done|].
  change (String c ((s1 +:+ s2) +:+ s3) = String c (s1 +:+ (s2 +:+ s3))).
  by rewrite IH.
Qed.

Lemma int_of_string_of_index (i : Z) :
  NilZero.int_of_string (string_of_index i) = Some (Z.to_int i).
Proof.
  unfold string_of_index. apply NilZero.isi.
  - destruct i; simpl; [done| |done].
    intros [= H]. by apply DecimalPos.Unsigned.to_uint_nonnil in H.
  - destruct i; simpl; [done|done|].
    intros [= H]. by apply DecimalPos.Unsigned.to_uint_nonnil in H.
Qed.

(** The form context finds back the index the controller wrote into a
    path. *)
Lemma index_of_path_field_path (n : string) (i : Z) :
  index_of_path n (field_path n i) = Some i.
Proof.
  unfold index_of_path, field_path.
  rewrite <- string_app_assoc, strip_prefix_app, int_of_string_of_index.
  simpl. by rewrite DecimalZ.of_to.
Qed.

(** * Facts about the controller *)

Ltac run_controller :=
  unfold after, call, append, prepend, remove, swap, move, insert, update,
    replace, reset, set_entry_value, entry_value, entry_name, entry_index,
    createEntry, next_seed, setFieldArrayValue, setFieldValue,
    registerFieldArray, put_fields, get_fields, get_values, get_name,
    bind, ret, throw;
  simpl.

Section ControllerFacts.
Context {Value : Type} (undefined : Value).
Implicit Types (st : @State Value) (m : @Mutator Value) (e : @FieldEntry Value).

Lemma map_createEntry_spec (vs : list Value) st :
  map_createEntry vs st
  = (Normal (entries_from (seed st) vs),
     {| name := name st; values := values st; calls := calls st;
        fields := fields st; seed := seed st + length vs |}).
Proof.
  revert st. induction vs as [|v vs IH]; intros st.
  - simpl. unfold ret. rewrite Nat.add_0_r. by destruct st.
  - simpl. run_controller. rewrite IH. simpl. do 3 f_equal. lia.
Qed.

Lemma all_Some_get (fs : list (option (@FieldEntry Value))) i :
  Forall is_Some fs -> JsArray.has_index i fs = true ->
  exists e, JsArray.get None fs i = Some e /\ fs !! Z.to_nat i = Some (Some e).
Proof.
  intros Hsome Hi. pose proof (get_has None _ _ Hi) as Hget.
  destruct (proj1 (Forall_lookup _ _) Hsome _ _ Hget) as [e He].
  exists e. by rewrite <- He.
Qed.

(** In a consistent state the entry at position [i] derives the index
    [i]. *)
Lemma consistent_index st (i : nat) e :
  consistent st -> fields st !! i = Some (Some e) ->
  entry_index e st = (Normal (Z.of_nat i), st).
Proof.
  intros (_ & Hsome & Hnd & _) Hi. unfold entry_index.
  by rewrite (findIndex_key_lookup _ i e 0 Hsome Hnd Hi).
Qed.

Lemma useFieldArray_consistent (n : string) (vs : list Value) :
  consistent (useFieldArray n vs).
Proof.
  unfold useFieldArray. run_controller. rewrite map_createEntry_spec. simpl.
  unfold consistent, keys. simpl.
  rewrite entries_from_length, entries_from_keys.
  split_and!; [done | apply entries_from_all_Some | apply NoDup_seq |].
  apply Forall_seq. lia.
Qed.

(** A fresh key next to the keys of a consistent state. *)
Lemma fresh_keys (ks : list nat) (k0 n : nat) :
  NoDup ks -> Forall (fun k => (k < k0)%nat) ks ->
  NoDup (ks ++ seq k0 n)
  /\ Forall (fun k => (k < k0 + n)%nat) (ks ++ seq k0 n).
Proof.
  intros Hnd Hlt. split.
  - apply NoDup_app. split_and!; [done | | apply NoDup_seq].
    intros k Hk Hin. apply elem_of_seq in Hin.
    apply (proj1 (Forall_forall _ _) Hlt) in Hk. lia.
  - apply Forall_app. split.
    + eapply Forall_impl; [done|]. simpl. lia.
    + apply Forall_seq. lia.
Qed.

Lemma reset_consistent st : consistent (snd (reset st)).
Proof.
  run_controller. rewrite map_createEntry_spec. simpl.
  unfold consistent, keys. simpl.
  rewrite entries_from_length, entries_from_keys.
  split_and!; [done | apply entries_from_all_Some | apply NoDup_seq |].
  apply Forall_seq. lia.
Qed.

Lemma append_consistent st v :
  consistent st ->
  fst (append v st) = Normal tt /\ consistent (snd (append v st)).
Proof.
  intros (Hlen & Hsome & Hnd & Hlt). run_controller.
  rewrite decide_True by done. split; [done|].
  unfold consistent, keys, appendAt. simpl.
  rewrite !length_app, entries_app, fmap_app. simpl.
  destruct (fresh_keys _ (seed st) 1 Hnd Hlt) as [Hnd' Hlt'].
  rewrite Nat.add_1_r in Hlt'.
  split_and!; [lia | | done | done].
  apply Forall_app. split; [done|]. repeat constructor. eauto.
Qed.

Lemma prepend_consistent st v :
  consistent st ->
  fst (prepend v st) = Normal tt /\ consistent (snd (prepend v st)).
Proof.
  intros (Hlen & Hsome & Hnd & Hlt). run_controller.
  rewrite decide_True by done. split; [done|].
  unfold consistent, keys, prependAt. simpl.
  destruct (fresh_keys _ (seed st) 1 Hnd Hlt) as [Hnd' Hlt'].
  rewrite Nat.add_1_r in Hlt'. simpl in *.
  rewrite <- Permutation_cons_append in Hnd', Hlt'.
  split_and!; [lia | | done | done].
  constructor; eauto.
Qed.

Lemma remove_consistent st index :
  consistent st ->
  fst (remove index st) = Normal tt /\ consistent (snd (remove index st)).
Proof.
  intros (Hlen & Hsome & Hnd & Hlt). run_controller.
  rewrite decide_True by done. split; [done|].
  unfold consistent, keys. simpl.
  destruct (entries_removeAt (fields st) index) as [gone Hgone].
  unfold keys in Hnd, Hlt. rewrite Hgone, fmap_app in Hnd, Hlt.
  apply NoDup_app in Hnd as (_ & _ & Hnd).
  apply Forall_app in Hlt as [_ Hlt].
  split_and!; [ | | done | done].
  - destruct index as [i|]; [|done]. rewrite !length_removeAt. by rewrite Hlen.
  - destruct index as [i|]; [|constructor].
    rewrite removeAt_delete. by apply Forall_delete.
Qed.

Lemma swap_consistent st a b :
  consistent st ->
  fst (swap undefined a b st) = Normal tt
  /\ consistent (snd (swap undefined a b st)).
Proof.
  intros Hst. pose proof Hst as (Hlen & Hsome & Hnd & Hlt). run_controller.
  destruct (JsArray.has_index a (values st)) eqn:Ha; simpl; [|done].
  destruct (JsArray.has_index b (values st)) eqn:Hb; simpl; [|done].
  rewrite decide_True by done. split; [done|].
  pose proof Ha as Ha'. pose proof Hb as Hb'.
  rewrite (has_index_length a _ _ Hlen) in Ha'.
  rewrite (has_index_length b _ _ Hlen) in Hb'.
  pose proof (proj1 (has_index_spec _ _) Ha) as Har.
  pose proof (proj1 (has_index_spec _ _) Hb) as Hbr.
  unfold consistent, keys. simpl.
  rewrite (entries_swapAt (fields st) a b) by lia.
  split_and!; [ | | done | done].
  - by rewrite !length_swapAt.
  - destruct (all_Some_get _ _ Hsome Ha') as (ea & Hea & _).
    destruct (all_Some_get _ _ Hsome Hb') as (eb & Heb & _).
    unfold swapAt. rewrite Hea, Heb.
    rewrite (set_has None b) by done.
    rewrite (set_has None a)
      by (rewrite <- Ha'; apply has_index_length; by rewrite length_insert).
    apply Forall_insert; [|eauto]. apply Forall_insert; eauto.
Qed.

Lemma move_consistent st from to :
  consistent st ->
  fst (move undefined from to st) = Normal tt
  /\ consistent (snd (move undefined from to st)).
Proof.
  intros Hst. pose proof Hst as (Hlen & Hsome & Hnd & Hlt). run_controller.
  destruct (JsArray.has_index from (values st)) eqn:Hf; simpl; [|done].
  rewrite decide_True by done. split; [done|].
  pose proof Hf as Hf'. rewrite (has_index_length _ _ _ Hlen) in Hf'.
  unfold consistent, keys. simpl.
  rewrite (entries_moveAt (fields st) from to).
  split_and!; [ | | done | done].
  - by rewrite !length_moveAt.
  - destruct (all_Some_get _ _ Hsome Hf') as (e & He & _).
    rewrite moveAt_has by done. cbv zeta. rewrite He.
    apply Forall_app. split; [apply Forall_take; by apply Forall_delete|].
    constructor; [eauto|]. apply Forall_drop. by apply Forall_delete.
Qed.

Lemma insert_consistent st index v :
  consistent st ->
  fst (insert index v st) = Normal tt /\ consistent (snd (insert index v st)).
Proof.
  intros (Hlen & Hsome & Hnd & Hlt). run_controller.
  rewrite decide_True by done. split; [done|].
  unfold consistent, keys. simpl.
  rewrite entries_insertAt. simpl.
  destruct (fresh_keys _ (seed st) 1 Hnd Hlt) as [Hnd' Hlt'].
  rewrite Nat.add_1_r in Hlt'. simpl in *.
  rewrite <- Permutation_cons_append in Hnd', Hlt'.
  split_and!; [ | | done | done].
  - rewrite !length_insertAt. lia.
  - rewrite insertAt_take_drop. cbv zeta.
    apply Forall_app. split; [by apply Forall_take|].
    constructor; [eauto | by apply Forall_drop].
Qed.

Lemma update_consistent st index v :
  consistent st ->
  fst (update undefined index v st) = Normal tt
  /\ consistent (snd (update undefined index v st)).
Proof.
  intros Hst. pose proof Hst as (Hlen & Hsome & Hnd & Hlt).
  unfold update, bind, get_name, get_values. simpl.
  destruct (JsArray.has_index index (values st)) eqn:Hi; simpl; [|done].
  pose proof Hi as Hi'. rewrite (has_index_length _ _ _ Hlen) in Hi'.
  pose proof (proj1 (has_index_spec _ _) Hi) as Hr.
  destruct (all_Some_get _ _ Hsome Hi') as (e & He & Hlook).
  unfold setFieldArrayValue, get_fields. simpl. rewrite He.
  unfold set_entry_value, bind.
  set (st1 := {| name := name st |}).
  assert (consistent st1) as Hst1.
  { unfold consistent, keys, st1. simpl. rewrite decide_True by done.
    unfold updateAt. by rewrite length_set. }
  rewrite (consistent_index st1 (Z.to_nat index) e Hst1 Hlook).
  rewrite Z2Nat.id by lia.
  destruct (Z.eqb_spec index (-1)); [lia|].
  run_controller. rewrite index_of_path_field_path. split; [done|].
  rewrite decide_True by done.
  unfold consistent, keys, updateAt. simpl.
  split_and!; [ | done..].
  rewrite length_set; rewrite ?length_set; try done.
  rewrite <- Hi. apply has_index_length. by rewrite length_set.
Qed.

Lemma replace_consistent st vals :
  fst (replace vals st) = Normal tt /\ consistent (snd (replace vals st)).
Proof.
  run_controller. rewrite map_createEntry_spec. simpl. split; [done|].
  rewrite decide_True by done.
  unfold consistent, keys. simpl.
  rewrite entries_from_length, entries_from_keys.
  split_and!; [done | apply entries_from_all_Some | apply NoDup_seq |].
  apply Forall_seq. lia.
Qed.

(** Every mutator returns, without throwing, and keeps the invariant. *)
Lemma call_consistent m st :
  consistent st ->
  fst (call undefined m st) = Normal tt /\ consistent (after undefined m st).
Proof.
  intros Hst. unfold after.
  destruct m; simpl.
  - by apply append_consistent.
  - by apply prepend_consistent.
  - by apply swap_consistent.
  - by apply remove_consistent.
  - by apply move_consistent.
  - by apply insert_consistent.
  - by apply update_consistent.
  - apply replace_consistent.
Qed.

Lemma after_all_consistent (ms : list (@Mutator Value)) st :
  consistent st -> consistent (after_all undefined ms st).
Proof.
  revert st. induction ms as [|m ms IH]; intros st Hst; [done|].
  simpl. apply IH. by apply call_consistent.
Qed.

End ControllerFacts.

(** * The properties of the field array *)

Section Properties.
Context {Value : Type} (undefined : Value).
Implicit Types (st : @State Value) (m : @Mutator Value) (e : @FieldEntry Value).

(** What [remove] does, in any state. *)
Lemma remove_eq st index :
  remove index st
  = (Normal tt,
     {| name := name st;
        values := removeAt (values st) index;
        calls := calls st ++
                 [SetFieldArrayValue (name st) (removeAt (values st) index)
                    FnRemoveAt {| argA := index; argB := None |} None];
        fields := removeAt (fields st) index;
        seed := seed st |}).
Proof. run_controller. by rewrite decide_True. Qed.

(** In a consistent state every slot holds an entry whose derived name
    and value are those of its position. *)
Lemma consistent_projection st (i : nat) slot :
  consistent st -> fields st !! i = Some slot ->
  exists e, slot = Some e
    /\ entry_name e st = (Normal (field_path (name st) (Z.of_nat i)), st)
    /\ entry_value undefined e st
       = (Normal (JsArray.get undefined (values st) (Z.of_nat i)), st).
Proof.
  intros Hst Hi. pose proof Hst as (_ & Hsome & _).
  destruct (proj1 (Forall_lookup _ _) Hsome _ _ Hi) as [e ->].
  exists e. split; [done|].
  pose proof (consistent_index st i e Hst Hi) as Hidx.
  unfold entry_name, entry_value, bind. rewrite Hidx.
  destruct (Z.eqb_spec (Z.of_nat i) (-1)); [lia|]. done.
Qed.

Lemma after_name m st : name (after undefined m st) = name st.
Proof.
  destruct m; run_controller; rewrite ?map_createEntry_spec;
    by repeat case_match.
Qed.

(** C1.  After any of the eight mutators has been called in a consistent
    state, the call has returned normally, the value sequence and the
    entry sequence have the same length, every position [i] of the entry
    sequence holds an entry whose name is ["<arrayName>.<i>"] and whose
    value is the value at position [i], and the state is consistent
    again.  The form context commits the sequence it is handed unchanged
    (see [setFieldArrayValue]). *)
Theorem mutators_keep_sequences_aligned st m :
  consistent st ->
  let st' := after undefined m st in
  fst (call undefined m st) = Normal tt
  /\ name st' = name st
  /\ length (values st') = length (fields st')
  /\ (forall (i : nat) slot, fields st' !! i = Some slot ->
        exists e, slot = Some e
          /\ entry_name e st'
             = (Normal (field_path (name st) (Z.of_nat i)), st')
          /\ entry_value undefined e st'
             = (Normal (JsArray.get undefined (values st') (Z.of_nat i)), st'))
  /\ consistent st'.
Proof.
  intros Hst st'. destruct (call_consistent undefined m st Hst) as [Hret Hst'].
  fold st' in Hst'. pose proof (after_name m st) as Hname. fold st' in Hname.
  split_and!; [done | done | apply Hst' | | done].
  intros i slot Hi. rewrite <- Hname. by apply consistent_projection.
Qed.

(** What an out-of-range [remove] does: the same [splice] on both
    sequences. *)
Lemma remove_after st i :
  let st' := after undefined (Remove (Some i)) st in
  values st' = delete (JsArray.rel_index (length (values st)) i) (values st)
  /\ fields st' = delete (JsArray.rel_index (length (fields st)) i) (fields st).
Proof.
  unfold after, call. rewrite remove_eq. cbn [snd values fields].
  by rewrite !removeAt_delete.
Qed.

Lemma delete_length_id {A} (l : list A) : delete (length l) l = l.
Proof. rewrite delete_take_drop, take_ge, drop_ge by lia. apply app_nil_r. Qed.

(** C2, as amended.  [remove(i)] with an out-of-range [i], in a state
    whose two sequences have the same length, performs the same [splice]
    on the value sequence and on the entry sequence: the two keep the same
    length; with [i] at or past the end both are left as they were; with a
    negative [i] the element at position [max (length + i) 0] goes from
    both. *)
Theorem remove_out_of_range_stays_aligned st i :
  length (values st) = length (fields st) ->
  JsArray.has_index i (values st) = false ->
  let st' := after undefined (Remove (Some i)) st in
  let k := JsArray.rel_index (length (values st)) i in
  values st' = delete k (values st)
  /\ fields st' = delete k (fields st)
  /\ length (values st') = length (fields st')
  /\ (Z.of_nat (length (values st)) <= i ->
      values st' = values st /\ fields st' = fields st)
  /\ (i < 0 -> k = Z.to_nat (Z.max (Z.of_nat (length (values st)) + i) 0)).
Proof.
  intros Hlen Hout st' k. destruct (remove_after st i) as [Hv Hf].
  fold st' in Hv, Hf. rewrite <- Hlen in Hf. fold k in Hv, Hf.
  split_and!; [done | done | | | ].
  - rewrite Hv, Hf.
    destruct (decide (k < length (values st))%nat) as [Hk|Hk].
    + rewrite !length_delete by (apply lookup_lt_is_Some_2; lia). lia.
    + pose proof (rel_index_le (length (values st)) i). fold k in H.
      replace k with (length (values st)) by lia.
      rewrite delete_length_id, Hlen, delete_length_id. lia.
  - intros Hpast. rewrite Hv, Hf. unfold k.
    rewrite rel_index_past by done.
    by rewrite delete_length_id, Hlen, delete_length_id.
  - intros Hneg. unfold k, JsArray.rel_index.
    destruct (Z.ltb_spec i 0); [done | lia].
Qed.

(** C10.  [remove(i)] with [-n <= i <= -1], in a state whose two
    sequences have the length [n], is not a no-op: it deletes the element
    at position [n + i] from the value sequence and from the entry
    sequence, and both end with the length [n - 1]. *)
Theorem remove_negative_index_counts_from_end st i :
  length (values st) = length (fields st) ->
  - Z.of_nat (length (values st)) <= i <= -1 ->
  let n := length (values st) in
  let st' := after undefined (Remove (Some i)) st in
  values st' = delete (Z.to_nat (Z.of_nat n + i)) (values st)
  /\ fields st' = delete (Z.to_nat (Z.of_nat n + i)) (fields st)
  /\ length (values st') = (n - 1)%nat
  /\ length (fields st') = (n - 1)%nat
  /\ values st' <> values st
  /\ fields st' <> fields st.
Proof.
  intros Hlen Hi n st'. destruct (remove_after st i) as [Hv Hf].
  fold st' in Hv, Hf. rewrite <- Hlen in Hf. fold n in Hv, Hf.
  rewrite rel_index_from_end in Hv, Hf by done.
  assert (length (values st') = (n - 1)%nat) as Hlv.
  { rewrite Hv, length_delete by (apply lookup_lt_is_Some_2; lia). done. }
  assert (length (fields st') = (n - 1)%nat) as Hlf.
  { rewrite Hf, length_delete by (apply lookup_lt_is_Some_2; lia). lia. }
  split_and!; [done | done | done | done | | ].
  - intros Heq. rewrite Heq in Hlv. lia.
  - intros Heq. rewrite Heq in Hlf. lia.
Qed.

(** C7.  [remove(1)] on the values [a, b, c] leaves [a, c] and takes the
    entry at position 1 away; [remove()] returns normally and leaves both
    sequences empty, in any state, a non-empty one included. *)
Theorem remove_semantics st :
  (forall a b c s0 s1 s2,
      values st = [a; b; c] -> fields st = [s0; s1; s2] ->
      fst (remove (Some 1) st) = Normal tt
      /\ values (after undefined (Remove (Some 1)) st) = [a; c]
      /\ fields (after undefined (Remove (Some 1)) st) = [s0; s2])
  /\ (values st <> [] ->
      fst (remove None st) = Normal tt
      /\ values (after undefined (Remove None) st) = []
      /\ fields (after undefined (Remove None) st) = []).
Proof.
  split.
  - intros a b c s0 s1 s2 Hv Hf. unfold after, call.
    rewrite remove_eq. simpl. by rewrite Hv, Hf.
  - intros _. unfold after, call. by rewrite remove_eq.
Qed.

Lemma swap_eq st a b :
  JsArray.has_index a (values st) = true ->
  JsArray.has_index b (values st) = true ->
  swap undefined a b st
  = (Normal tt,
     {| name := name st;
        values := swapAt undefined (values st) a b;
        calls := calls st ++
                 [SetFieldArrayValue (name st) (swapAt undefined (values st) a b)
                    FnSwapAt {| argA := Some a; argB := Some b |} (Some false)];
        fields := swapAt None (fields st) a b;
        seed := seed st |}).
Proof.
  intros Ha Hb. unfold swap, bind, get_name, get_values. simpl.
  rewrite Ha, Hb. run_controller. by rewrite decide_True.
Qed.

Lemma swap_rejected st a b :
  JsArray.has_index a (values st) = false
  \/ JsArray.has_index b (values st) = false ->
  swap undefined a b st = (Normal tt, st).
Proof.
  intros H. unfold swap, bind, get_name, get_values. simpl.
  destruct H as [-> | ->]; [done|]. by rewrite orb_true_r.
Qed.

Lemma move_eq st from to :
  JsArray.has_index from (values st) = true ->
  move undefined from to st
  = (Normal tt,
     {| name := name st;
        values := moveAt undefined (values st) from to;
        calls := calls st ++
                 [SetFieldArrayValue (name st)
                    (moveAt undefined (values st) from to)
                    FnMoveAt {| argA := Some from; argB := Some to |}
                    (Some false)];
        fields := moveAt None (fields st) from to;
        seed := seed st |}).
Proof.
  intros Hf. unfold move, bind, get_name, get_values. simpl.
  rewrite Hf. run_controller. by rewrite decide_True.
Qed.

Lemma move_rejected st from to :
  JsArray.has_index from (values st) = false ->
  move undefined from to st = (Normal tt, st).
Proof.
  intros H. unfold move, bind, get_name, get_values. simpl. by rewrite H.
Qed.

Lemma update_rejected st i v :
  JsArray.has_index i (values st) = false ->
  update undefined i v st = (Normal tt, st).
Proof.
  intros H. unfold update, bind, get_name, get_values. simpl. by rewrite H.
Qed.

(** C3, as amended.  [swap] with an index that is not an index of the
    values, [move] with such a [from], and [update] with such an index
    return at once: the state they leave is the state they found, so
    neither sequence has changed and the form context has received no
    call.  In particular [swap(0, 5)] on three values changes nothing.
    [move] checks [from] only: with [from] an index of the values it
    commits [moveAt] of the values, whatever [to] is, [splice] clamping
    a [to] that is out of range. *)
Theorem guarded_mutators_ignore_bad_index st :
  (forall a b,
      ~ (0 <= a < Z.of_nat (length (values st)))
      \/ ~ (0 <= b < Z.of_nat (length (values st))) ->
      call undefined (Swap a b) st = (Normal tt, st))
  /\ (forall from to,
      ~ (0 <= from < Z.of_nat (length (values st))) ->
      call undefined (Move from to) st = (Normal tt, st))
  /\ (forall i v,
      ~ (0 <= i < Z.of_nat (length (values st))) ->
      call undefined (Update i v) st = (Normal tt, st))
  /\ (length (values st) = 3%nat ->
      call undefined (Swap 0 5) st = (Normal tt, st)
      /\ values (after undefined (Swap 0 5) st) = values st
      /\ fields (after undefined (Swap 0 5) st) = fields st
      /\ calls (after undefined (Swap 0 5) st) = calls st)
  /\ (forall from to,
      0 <= from < Z.of_nat (length (values st)) ->
      fst (call undefined (Move from to) st) = Normal tt
      /\ values (after undefined (Move from to) st)
         = moveAt undefined (values st) from to
      /\ fields (after undefined (Move from to) st)
         = moveAt None (fields st) from to
      /\ calls (after undefined (Move from to) st)
         = calls st ++
           [SetFieldArrayValue (name st)
              (moveAt undefined (values st) from to) FnMoveAt
              {| argA := Some from; argB := Some to |} (Some false)]).
Proof.
  assert (forall i, ~ (0 <= i < Z.of_nat (length (values st))) ->
                    JsArray.has_index i (values st) = false) as Hout.
  { intros i Hi. apply has_index_false. lia. }
  split_and!.
  - intros a b [Ha|Hb]; apply swap_rejected; auto.
  - intros from to Hf. apply move_rejected; auto.
  - intros i v Hi. apply update_rejected; auto.
  - intros Hlen. unfold after.
    assert (call undefined (Swap 0 5) st = (Normal tt, st)) as ->; [|done].
    apply swap_rejected. right. apply Hout. lia.
  - intros from to Hf. unfold after, call.
    by rewrite move_eq by (by apply has_index_spec).
Qed.

Lemma reorder_step st m :
  reorders m = true ->
  entries (fields (after undefined m st)) ≡ₚ entries (fields st)
  /\ seed (after undefined m st) = seed st.
Proof.
  destruct m as [| |a b| |from to| | |]; try done; intros _; unfold after, call.
  - destruct (JsArray.has_index a (values st)) eqn:Ha;
      [|by rewrite swap_rejected by auto].
    destruct (JsArray.has_index b (values st)) eqn:Hb;
      [|by rewrite swap_rejected by auto].
    rewrite swap_eq by done. cbn [snd fields seed]. split; [|done].
    apply has_index_spec in Ha, Hb. apply entries_swapAt; lia.
  - destruct (JsArray.has_index from (values st)) eqn:Hf;
      [|by rewrite move_rejected].
    rewrite move_eq by done. cbn [snd fields seed]. split; [|done].
    apply entries_moveAt.
Qed.

(** C4.  After any finite sequence of [swap] and [move] calls the entry
    list holds the entries it held before, each with the key it had (an
    entry is the record of its key), none added and none dropped, and the
    key counter has not moved: no key was allocated. *)
Theorem reordering_keeps_keys st (ms : list (@Mutator Value)) :
  Forall (fun m => reorders m = true) ms ->
  let st' := after_all undefined ms st in
  entries (fields st') ≡ₚ entries (fields st)
  /\ keys st' ≡ₚ keys st
  /\ (forall e, e ∈ entries (fields st) <-> e ∈ entries (fields st'))
  /\ seed st' = seed st.
Proof.
  intros Hms. cbv zeta.
  assert (entries (fields (after_all undefined ms st)) ≡ₚ entries (fields st)
          /\ seed (after_all undefined ms st) = seed st) as [Hperm Hseed].
  { revert st. induction Hms as [|m ms Hm _ IH]; intros st; [done|].
    simpl. destruct (IH (after undefined m st)) as [IHp IHs].
    destruct (reorder_step st m Hm) as [Hp Hs].
    split; [by rewrite IHp | by rewrite IHs]. }
  split_and!; [done | | | done].
  - unfold keys. by rewrite Hperm.
  - intros e. by rewrite Hperm.
Qed.

(** C9.  On three values [a, b, c], [move(0, 2)] gives [b, c, a] and the
    following [move(2, 0)] gives back [a, b, c]; the entry list goes
    through the same two steps, so every entry reads after the round trip
    the value it read before it. *)
Theorem move_round_trip st a b c s0 s1 s2 :
  values st = [a; b; c] -> fields st = [s0; s1; s2] ->
  let st1 := after undefined (Move 0 2) st in
  let st2 := after undefined (Move 2 0) st1 in
  values st1 = [b; c; a] /\ fields st1 = [s1; s2; s0]
  /\ values st2 = [a; b; c] /\ fields st2 = [s0; s1; s2]
  /\ seed st2 = seed st
  /\ (forall e, fst (entry_value undefined e st2)
                = fst (entry_value undefined e st))
  /\ (forall e, fst (entry_index e st2) = fst (entry_index e st)).
Proof.
  intros Hv Hf st1 st2.
  assert (values st1 = [b; c; a] /\ fields st1 = [s1; s2; s0]
          /\ seed st1 = seed st) as (Hv1 & Hf1 & Hs1).
  { unfold st1, after, call. rewrite move_eq by (by rewrite Hv).
    cbn [snd values fields seed]. by rewrite Hv, Hf. }
  assert (values st2 = [a; b; c] /\ fields st2 = [s0; s1; s2]
          /\ seed st2 = seed st1) as (Hv2 & Hf2 & Hs2).
  { unfold st2, after, call. rewrite move_eq by (by rewrite Hv1).
    cbn [snd values fields seed]. by rewrite Hv1, Hf1. }
  clearbody st1 st2.
  split_and!; try done; [congruence | |].
  - intros e. unfold entry_value, entry_index, bind, get_values, ret.
    cbn beta iota. rewrite Hf2, Hf. destruct (findIndex_key _ _ _); [|done].
    case_match; [done|]. cbn [fst]. by rewrite Hv2, Hv.
  - intros e. unfold entry_index. simpl. by rewrite Hf2, Hf.
Qed.

(** C6.  With [index] the derived index of an entry: when [index] is not
    [-1], reading the value of the entry gives [values[index]] and
    writing it is the call [setFieldValue("<arrayName>.<index>", v)] and
    nothing else; when [index] is [-1], reading gives the value captured
    at creation and writing leaves the state as it is, the form context
    receiving no call. *)
Theorem entry_value_follows_index st e v index :
  entry_index e st = (Normal index, st) ->
  (index <> -1 ->
     entry_value undefined e st
     = (Normal (JsArray.get undefined (values st) index), st)
     /\ set_entry_value undefined e v st
        = setFieldValue undefined (field_path (name st) index) v st
     /\ calls (snd (set_entry_value undefined e v st))
        = calls st ++ [SetFieldValue (field_path (name st) index) v]
     /\ values (snd (set_entry_value undefined e v st))
        = JsArray.set undefined (values st) index v)
  /\ (index = -1 ->
     entry_value undefined e st = (Normal (captured e), st)
     /\ set_entry_value undefined e v st = (Normal tt, st)).
Proof.
  intros Hidx. unfold entry_value, set_entry_value, bind. rewrite Hidx.
  split.
  - intros Hne. destruct (Z.eqb_spec index (-1)); [done|].
    run_controller. by rewrite index_of_path_field_path.
  - intros ->. done.
Qed.

(** An entry that is no longer in the list derives the index [-1]. *)
Lemma stale_entry_index st e :
  Forall is_Some (fields st) -> key e ∉ keys st ->
  entry_index e st = (Normal (-1), st).
Proof.
  intros Hsome Hk. unfold entry_index. by rewrite findIndex_key_absent.
Qed.

Lemma after_seed_mono m st : (seed st <= seed (after undefined m st))%nat.
Proof.
  destruct m; run_controller; rewrite ?map_createEntry_spec;
    repeat case_match; simpl; lia.
Qed.

Lemma after_all_seed_mono (ms : list (@Mutator Value)) st :
  (seed st <= seed (after_all undefined ms st))%nat.
Proof.
  revert st. induction ms as [|m ms IH]; intros st; [done|].
  simpl. etrans; [apply (after_seed_mono m)|]. apply IH.
Qed.

Lemma after_all_app (ms1 ms2 : list (@Mutator Value)) st :
  after_all undefined (ms1 ++ ms2) st
  = after_all undefined ms2 (after_all undefined ms1 st).
Proof. apply foldl_app. Qed.

(** Every key an instance has held so far is below its counter. *)
Lemma earlier_keys_below_seed (n : string) (vs : list Value)
    (ms1 ms2 : list (@Mutator Value)) (k : nat) :
  k ∈ keys (after_all undefined ms1 (useFieldArray n vs)) ->
  (k < seed (after_all undefined (ms1 ++ ms2) (useFieldArray n vs)))%nat.
Proof.
  intros Hk. rewrite after_all_app.
  pose proof (after_all_consistent undefined ms1 _
                (useFieldArray_consistent n vs)) as (_ & _ & _ & Hlt).
  apply (proj1 (Forall_forall _ _) Hlt) in Hk.
  pose proof (after_all_seed_mono ms2
                (after_all undefined ms1 (useFieldArray n vs))). lia.
Qed.

(** C5.  The counter of an instance starts at 0: the entries made when
    the instance is set up have the keys [0, 1, ...].  [createEntry] gives
    the entry the value of the counter and moves the counter up by one.
    [replace([x, y])] after any calls of mutators leaves exactly two
    entries, with the keys [seed] and [seed + 1], and every key an entry
    of the instance had at any earlier point is below [seed]; [reset]
    likewise makes one entry per value, with the keys from [seed] on. *)
Theorem allocator_issues_fresh_keys (n : string) (vs : list Value)
    (ms : list (@Mutator Value)) (x y : Value) :
  let st := after_all undefined ms (useFieldArray n vs) in
  keys (useFieldArray n vs) = seq 0 (length vs)
  /\ (forall (v : Value) (s : @State Value),
        fst (createEntry v s) = Normal {| key := seed s; captured := v |}
        /\ seed (snd (createEntry v s)) = S (seed s))
  /\ fields (after undefined (Replace [x; y]) st)
     = [Some {| key := seed st; captured := x |};
        Some {| key := S (seed st); captured := y |}]
  /\ keys (snd (reset st)) = seq (seed st) (length (values st))
  /\ (forall ms1 ms2 k,
        ms = ms1 ++ ms2 ->
        k ∈ keys (after_all undefined ms1 (useFieldArray n vs)) ->
        (k < seed st)%nat
        /\ (k ∉ keys (after undefined (Replace [x; y]) st))
        /\ (k ∉ keys (snd (reset st)))).
Proof.
  intros st.
  assert (keys (snd (reset st)) = seq (seed st) (length (values st))) as Hreset.
  { unfold keys. run_controller. rewrite map_createEntry_spec. simpl.
    apply entries_from_keys. }
  assert (keys (after undefined (Replace [x; y]) st) = [seed st; S (seed st)])
    as Hreplace by done.
  split_and!.
  - unfold useFieldArray, keys. run_controller.
    rewrite map_createEntry_spec. simpl. apply entries_from_keys.
  - done.
  - done.
  - done.
  - intros ms1 ms2 k -> Hk.
    pose proof (earlier_keys_below_seed n vs ms1 ms2 k Hk) as Hlt.
    fold st in Hlt. split_and!; [done | |].
    + rewrite Hreplace. rewrite !not_elem_of_cons. split_and!; [lia | lia |].
      apply not_elem_of_nil.
    + rewrite Hreset, elem_of_seq. lia.
Qed.

(** The calls a mutator adds to those the form context has received. *)
Lemma after_calls m st :
  exists new,
    calls (after undefined m st) = calls st ++ new
    /\ ((accepts m st = false /\ new = [])
        \/ (accepts m st = true
            /\ exists p s f a rest,
                 new = SetFieldArrayValue p s f a
                         (if reorders m then Some false else None) :: rest
                 /\ Forall (fun c => is_commit c = false) rest)).
Proof.
  destruct m as [v|v|a b|i|from to|i v|i v|vals]; unfold after, call.
  - run_controller. eexists. split; [done|]. right. split; [done|].
    by repeat eexists.
  - run_controller. eexists. split; [done|]. right. split; [done|].
    by repeat eexists.
  - simpl. destruct (JsArray.has_index a (values st)) eqn:Ha;
      [destruct (JsArray.has_index b (values st)) eqn:Hb|].
    + rewrite swap_eq by done. eexists. split; [done|]. right.
      split; [done|]. by repeat eexists.
    + rewrite swap_rejected by auto. exists []. rewrite app_nil_r. auto.
    + rewrite swap_rejected by auto. exists []. rewrite app_nil_r. auto.
  - rewrite remove_eq. eexists. split; [done|]. right. split; [done|].
    by repeat eexists.
  - simpl. destruct (JsArray.has_index from (values st)) eqn:Hf.
    + rewrite move_eq by done. eexists. split; [done|]. right.
      split; [done|]. by repeat eexists.
    + rewrite move_rejected by auto. exists []. rewrite app_nil_r. auto.
  - run_controller. eexists. split; [done|]. right. split; [done|].
    by repeat eexists.
  - simpl. destruct (JsArray.has_index i (values st)) eqn:Hi.
    + unfold update, bind, get_name, get_values. simpl. rewrite Hi. simpl.
      destruct (JsArray.get None (fields st) i) as [e|]; simpl.
      * unfold set_entry_value, bind, entry_index. simpl.
        destruct (findIndex_key (key e) (fields st) 0) as [idx|err]; simpl.
        -- destruct (idx =? -1); simpl.
           ++ eexists. split; [done|]. right. split; [done|].
              by repeat eexists.
           ++ rewrite <- app_assoc. eexists. split; [done|]. right.
              split; [done|]. repeat eexists. by repeat constructor.
        -- eexists. split; [done|]. right. split; [done|].
           by repeat eexists.
      * eexists. split; [done|]. right. split; [done|]. by repeat eexists.
    + rewrite update_rejected by done. exists []. rewrite app_nil_r. auto.
  - run_controller. rewrite map_createEntry_spec. simpl.
    eexists. split; [done|]. right. split; [done|]. by repeat eexists.
Qed.

(** C8.  The calls a mutator makes are added to those the form context
    has received.  Every [setFieldArrayValue] among them is passed
    [shouldRevalidate = false] when the mutator is [swap] or [move], and
    is passed no fifth argument, which leaves the default [true], when
    the mutator is another one.  A mutator whose index check passes makes
    exactly one such call; one whose check fails makes no call. *)
Theorem revalidation_suppressed_only_for_reorderings st m :
  exists new,
    calls (after undefined m st) = calls st ++ new
    /\ Forall (fun c =>
         forall p s f a flag,
           c = SetFieldArrayValue p s f a flag ->
           flag = (if reorders m then Some false else None)
           /\ revalidates c = Some (negb (reorders m))) new
    /\ length (filter (fun c => is_commit c = true) new)
       = (if accepts m st then 1 else 0)%nat.
Proof.
  destruct (after_calls m st) as (new & Hcalls & Hnew).
  exists new. split; [done|].
  destruct Hnew as [[-> ->] | [-> (p & s & f & a & rest & -> & Hrest)]].
  - split; [constructor | done].
  - split.
    + constructor.
      * intros ????? [= <- <- <- <- <-]. split; [done|].
        simpl. by destruct (reorders m).
      * eapply Forall_impl; [exact Hrest|]. intros c Hc ????? ->. done.
    + rewrite filter_cons_True by done. simpl. f_equal.
      clear Hcalls. induction Hrest as [|c rest Hc _ IH]; [done|].
      by rewrite filter_cons_False by (by rewrite Hc).
Qed.

End Properties.


(** * The properties on the form of the documentation *)

Example foods_state :
  foods
  = {| name := "foods";
       values := [Some "Bubble Tea"; Some "Stinky Tofu"; Some "Scallion Pancake"];
       calls := [RegisterFieldArray "foods"];
       fields := [Some {| key := 0; captured := Some "Bubble Tea" |};
                  Some {| key := 1; captured := Some "Stinky Tofu" |};
                  Some {| key := 2; captured := Some "Scallion Pancake" |}];
       seed := 3 |}.
Proof. reflexivity. Qed.

Example foods_append :
  let st := after None (Append (Some "Fried Chicken")) foods in
  values st = [Some "Bubble Tea"; Some "Stinky Tofu"; Some "Scallion Pancake";
               Some "Fried Chicken"]
  /\ keys st = [0; 1; 2; 3]%nat /\ seed st = 4%nat.
Proof. by vm_compute. Qed.

Example foods_update :
  let st := after None (Update 1 (Some "Tea")) foods in
  values st = [Some "Bubble Tea"; Some "Tea"; Some "Scallion Pancake"]
  /\ keys st = [0; 1; 2]%nat
  /\ calls st
     = [RegisterFieldArray "foods";
        SetFieldArrayValue "foods"
          [Some "Bubble Tea"; Some "Tea"; Some "Scallion Pancake"]
          FnUpdateAt {| argA := Some 1; argB := None |} None;
        SetFieldValue "foods.1" (Some "Tea")].
Proof. by vm_compute. Qed.

(** [move] clamps its second index: [move(0, 5)] on three values moves
    the first value to the end, and commits. *)
Example foods_move_clamps :
  let st := after None (Move 0 5) foods in
  values st = [Some "Stinky Tofu"; Some "Scallion Pancake"; Some "Bubble Tea"]
  /\ keys st = [1; 2; 0]%nat.
Proof. by vm_compute. Qed.

(** [remove] with an index far below [-length] takes the first element
    from both sequences. *)
Example foods_remove_far_negative :
  let st := after None (Remove (Some (-5))) foods in
  values st = [Some "Stinky Tofu"; Some "Scallion Pancake"]
  /\ keys st = [1; 2]%nat.
Proof. by vm_compute. Qed.

Lemma foods_consistent : consistent foods.
Proof. apply (bool_decide_unpack _). vm_compute. reflexivity. Defined.

(** [move(0, 2)] on [foods]: the entry with key 0 is last and is named
    ["foods.2"]. *)
Lemma mutators_keep_sequences_aligned_foods :
  consistent foods
  /\ fst (call None (Move 0 2) foods) = Normal tt
  /\ length (values (after None (Move 0 2) foods))
     = length (fields (after None (Move 0 2) foods))
  /\ fst (entry_name {| key := 0; captured := Some "Bubble Tea" |}
            (after None (Move 0 2) foods))
     = Normal "foods.2".
Proof.
  split; [exact foods_consistent|].
  destruct (mutators_keep_sequences_aligned None foods (Move 0 2) foods_consistent)
    as (Hret & _ & Hlen & Hproj & _).
  split; [exact Hret|]. split; [exact Hlen|].
  destruct (Hproj 2%nat (Some {| key := 0; captured := Some "Bubble Tea" |}) eq_refl)
    as (e & He & Hname & _).
  injection He as <-. rewrite Hname. reflexivity.
Defined.

(** C2 as it is stated fails on [foods]: [remove(5)] leaves the values
    as they are and leaves the entries as they are too, so the two
    sequences still have the same length and the state is consistent. *)
Lemma remove_out_of_range_desync_refuted :
  ~ (forall i : Z,
       JsArray.has_index i (values foods) = false ->
       let st' := after None (Remove (Some i)) foods in
       values st' = values foods
       /\ (length (values st') <> length (fields st') \/ ~ consistent st')).
Proof.
  intros H. destruct (H 5 eq_refl) as [_ [Hlen | Hcons]].
  - apply Hlen. reflexivity.
  - apply Hcons. apply (bool_decide_unpack _). vm_compute. reflexivity.
Qed.

Lemma remove_out_of_range_stays_aligned_foods :
  length (values foods) = length (fields foods)
  /\ JsArray.has_index 5 (values foods) = false
  /\ values (after None (Remove (Some 5)) foods) = values foods
  /\ fields (after None (Remove (Some 5)) foods) = fields foods.
Proof.
  split; [reflexivity|]. split; [reflexivity|].
  apply (remove_out_of_range_stays_aligned None foods 5 eq_refl eq_refl).
  vm_compute. discriminate.
Defined.

(** C3 as it is stated fails on [foods]: in [move(0, 5)] the index [to]
    is out of range, and the call moves the first value and its entry to
    the end and commits. *)
Lemma move_with_bad_target_commits :
  ~ (forall from to : Z,
       JsArray.has_index from (values foods) = false
       \/ JsArray.has_index to (values foods) = false ->
       let st' := after None (Move from to) foods in
       values st' = values foods /\ fields st' = fields foods
       /\ calls st' = calls foods).
Proof.
  intros H. destruct (H 0 5 (or_intror eq_refl)) as (Hv & _).
  vm_compute in Hv. discriminate Hv.
Qed.

Lemma guarded_mutators_ignore_bad_index_foods :
  call None (Swap 0 5) foods = (Normal tt, foods)
  /\ call None (Move 3 0) foods = (Normal tt, foods)
  /\ call None (Update (-1) (Some "Tea")) foods = (Normal tt, foods)
  /\ values (after None (Move 0 5) foods)
     = [Some "Stinky Tofu"; Some "Scallion Pancake"; Some "Bubble Tea"].
Proof.
  destruct (guarded_mutators_ignore_bad_index None foods)
    as (Hswap & Hmove & Hupdate & _ & Hclamp).
  split; [apply Hswap; right; vm_compute; intros [_ H]; discriminate H|].
  split; [apply Hmove; vm_compute; intros [_ H]; discriminate H|].
  split; [apply Hupdate; vm_compute; intros [H _]; apply H; reflexivity|].
  destruct (Hclamp 0 5) as (_ & Hv & _);
    [vm_compute; split; [discriminate | reflexivity]|].
  rewrite Hv. reflexivity.
Defined.

Lemma reordering_keeps_keys_foods :
  Forall (fun m : @Mutator (option string) => reorders m = true)
    [Swap 0 2; Move 1 0]
  /\ keys (after_all None [Swap 0 2; Move 1 0] foods) ≡ₚ keys foods
  /\ seed (after_all None [Swap 0 2; Move 1 0] foods) = seed foods.
Proof.
  assert (Forall (fun m : @Mutator (option string) => reorders m = true)
            [Swap 0 2; Move 1 0]) as Hms
    by (repeat constructor).
  split; [exact Hms|].
  destruct (reordering_keeps_keys None foods _ Hms) as (_ & Hkeys & _ & Hseed).
  split; [exact Hkeys | exact Hseed].
Defined.

(** The entry of key 1 reads and writes at index 1; an entry of key 7,
    which [foods] does not hold, reads the value it captured. *)
Lemma entry_value_follows_index_foods :
  entry_index {| key := 1; captured := Some "Stinky Tofu" |} foods
  = (Normal 1, foods)
  /\ fst (entry_value None {| key := 1; captured := Some "Stinky Tofu" |} foods)
     = Normal (Some "Stinky Tofu")
  /\ calls (snd (set_entry_value None
                   {| key := 1; captured := Some "Stinky Tofu" |}
                   (Some "Tea") foods))
     = [RegisterFieldArray "foods"; SetFieldValue "foods.1" (Some "Tea")]
  /\ entry_index {| key := 7; captured := Some "Gone" |} foods
     = (Normal (-1), foods)
  /\ set_entry_value None {| key := 7; captured := Some "Gone" |}
       (Some "Tea") foods
     = (Normal tt, foods).
Proof.
  split; [reflexivity|].
  destruct (entry_value_follows_index None foods
              {| key := 1; captured := Some "Stinky Tofu" |} (Some "Tea") 1
              eq_refl) as [Hlive _].
  destruct Hlive as (Hread & _ & Hcalls & _); [discriminate|].
  split; [rewrite Hread; reflexivity|].
  split; [rewrite Hcalls; reflexivity|].
  split; [reflexivity|].
  apply (entry_value_follows_index None foods
           {| key := 7; captured := Some "Gone" |} (Some "Tea") (-1) eq_refl).
  reflexivity.
Defined.

Lemma remove_semantics_foods :
  values (after None (Remove (Some 1)) foods)
  = [Some "Bubble Tea"; Some "Scallion Pancake"]
  /\ values (after None (Remove None) foods) = []
  /\ fields (after None (Remove None) foods) = [].
Proof.
  destruct (remove_semantics None foods) as [Hone Hall].
  destruct (Hone _ _ _ _ _ _ eq_refl eq_refl) as (_ & Hv & _).
  destruct Hall as (_ & Hv0 & Hf0); [discriminate|].
  split; [exact Hv|]. split; [exact Hv0 | exact Hf0].
Defined.

Lemma move_round_trip_foods :
  values (after None (Move 2 0) (after None (Move 0 2) foods)) = values foods
  /\ fields (after None (Move 2 0) (after None (Move 0 2) foods)) = fields foods.
Proof.
  destruct (move_round_trip None foods _ _ _ _ _ _ eq_refl eq_refl)
    as (_ & _ & Hv & Hf & _).
  split; [exact Hv | exact Hf].
Defined.

Lemma remove_negative_index_counts_from_end_foods :
  length (values foods) = length (fields foods)
  /\ - Z.of_nat (length (values foods)) <= -1 <= -1
  /\ values (after None (Remove (Some (-1))) foods)
     = [Some "Bubble Tea"; Some "Stinky Tofu"]
  /\ length (fields (after None (Remove (Some (-1))) foods)) = 2%nat.
Proof.
  assert (- Z.of_nat (length (values foods)) <= -1 <= -1) as Hi
    by (vm_compute; split; discriminate).
  split; [reflexivity|]. split; [exact Hi|].
  destruct (remove_negative_index_counts_from_end None foods (-1) eq_refl Hi)
    as (Hv & _ & _ & Hlf & _).
  split; [rewrite Hv; reflexivity | exact Hlf].
Defined.

(** * More about the transforms *)

Section TransformFacts.
Context {T : Type} (undef : T).
Implicit Types (data : list T) (i j a b : Z).

(** Two arrays of the same length that read the same everywhere are the
    same array. *)
Lemma array_eq_get data1 data2 :
  length data1 = length data2 ->
  (forall j, JsArray.get undef data1 j = JsArray.get undef data2 j) ->
  data1 = data2.
Proof.
  intros Hlen Hget. apply (list_eq_same_length _ _ (length data1)); [done..|].
  intros n x y Hn Hx Hy. specialize (Hget (Z.of_nat n)).
  unfold JsArray.get in Hget.
  destruct (Z.ltb_spec (Z.of_nat n) 0); [lia|].
  rewrite Nat2Z.id, Hx, Hy in Hget. done.
Qed.

(** What [swapAt] leaves at each position. *)
Lemma swapAt_get data a b j :
  0 <= a -> 0 <= b ->
  JsArray.get undef (swapAt undef data a b) j
  = if decide (j = a) then JsArray.get undef data b
    else if decide (j = b) then JsArray.get undef data a
    else JsArray.get undef data j.
Proof.
  intros Ha Hb. unfold swapAt.
  destruct (decide (j = a)) as [->|Hja]; [by rewrite get_set_eq|].
  rewrite get_set_ne by done.
  destruct (decide (j = b)) as [->|Hjb]; [by rewrite get_set_eq|].
  by rewrite get_set_ne.
Qed.

(** X1.  [swapAt] at two array indices (integers from [0] to
    [2^32 - 2]) exchanges what the two positions read and leaves every
    other position as it reads, also when an index is past the end and
    the array grows: the array then has the length of the larger index
    plus one. *)
Theorem swapAt_exchanges data a b j :
  0 <= a < 4294967295 -> 0 <= b < 4294967295 ->
  JsArray.get undef (swapAt undef data a b) j
  = (if decide (j = a) then JsArray.get undef data b
     else if decide (j = b) then JsArray.get undef data a
     else JsArray.get undef data j)
  /\ Z.of_nat (length (swapAt undef data a b))
     = Z.max (Z.of_nat (length data)) (Z.max a b + 1).
Proof.
  intros [Ha _] [Hb _]. split; [by apply swapAt_get|].
  assert (forall d i v, 0 <= i ->
            Z.of_nat (length (JsArray.set undef d i v))
            = Z.max (Z.of_nat (length d)) (i + 1)) as Hset.
  { intros d i v Hi. unfold JsArray.set.
    destruct (Z.ltb_spec i 0); [lia|].
    destruct (Nat.ltb_spec (Z.to_nat i) (length d)).
    - rewrite length_insert. lia.
    - rewrite !length_app, length_replicate. simpl. lia. }
  unfold swapAt. rewrite !Hset by done. lia.
Qed.

Lemma swapAt_twice data a b :
  JsArray.has_index a data = true -> JsArray.has_index b data = true ->
  swapAt undef (swapAt undef data a b) a b = data.
Proof.
  intros Ha Hb.
  pose proof (proj1 (has_index_spec _ _) Ha).
  pose proof (proj1 (has_index_spec _ _) Hb).
  pose proof (length_swapAt undef data a b Ha Hb) as Hlen.
  apply array_eq_get.
  - rewrite length_swapAt; [done | |];
      by rewrite (has_index_length _ _ data Hlen).
  - intros j. rewrite !swapAt_get by lia.
    repeat case_decide; by subst.
Qed.

Lemma swapAt_sym data a b :
  JsArray.has_index a data = true -> JsArray.has_index b data = true ->
  swapAt undef data a b = swapAt undef data b a.
Proof.
  intros Ha Hb.
  pose proof (proj1 (has_index_spec _ _) Ha).
  pose proof (proj1 (has_index_spec _ _) Hb).
  apply array_eq_get; [by rewrite !length_swapAt|].
  intros j. rewrite !swapAt_get by lia.
  repeat case_decide; by subst.
Qed.

Lemma swapAt_same data a :
  JsArray.has_index a data = true -> swapAt undef data a a = data.
Proof.
  intros Ha. pose proof (proj1 (has_index_spec _ _) Ha).
  apply array_eq_get; [by rewrite length_swapAt|].
  intros j. rewrite swapAt_get by lia.
  repeat case_decide; by subst.
Qed.

(** Taking an element out and putting it back where it was. *)
Lemma moveAt_same data from :
  JsArray.has_index from data = true -> moveAt undef data from from = data.
Proof.
  intros Hf. pose proof (proj1 (has_index_spec _ _) Hf) as Hr.
  pose proof (get_has undef _ _ Hf) as Hget.
  rewrite moveAt_has by done. cbv zeta.
  rewrite length_delete by (apply lookup_lt_is_Some_2; lia).
  unfold JsArray.rel_index. destruct (Z.ltb_spec from 0); [lia|].
  replace (Z.to_nat (Z.min from (Z.of_nat (length data - 1))))
    with (Z.to_nat from) by lia.
  rewrite delete_take_drop.
  rewrite take_app_le, take_take, Nat.min_id by (rewrite length_take; lia).
  rewrite drop_app_length' by (rewrite length_take; lia).
  by apply take_drop_middle.
Qed.

(** With [to] at or past the last position the element goes last. *)
Lemma moveAt_to_end data from to :
  JsArray.has_index from data = true ->
  Z.of_nat (length data) - 1 <= to ->
  moveAt undef data from to
  = delete (Z.to_nat from) data ++ [JsArray.get undef data from].
Proof.
  intros Hf Hto. pose proof (proj1 (has_index_spec _ _) Hf) as Hr.
  rewrite moveAt_has by done. cbv zeta.
  rewrite rel_index_past
    by (rewrite length_delete by (apply lookup_lt_is_Some_2; lia); lia).
  by rewrite take_ge, drop_ge by done.
Qed.

Lemma moveAt_back data from to :
  JsArray.has_index from data = true -> JsArray.has_index to data = true ->
  moveAt undef (moveAt undef data from to) to from = data.
Proof.
  intros Hf Ht.
  pose proof (proj1 (has_index_spec _ _) Hf) as Hfr.
  pose proof (proj1 (has_index_spec _ _) Ht) as Htr.
  pose proof (get_has undef _ _ Hf) as Hget.
  pose proof (length_moveAt undef data from to Hf) as Hlen.
  assert (length (delete (Z.to_nat from) data) = (length data - 1)%nat) as Hld
    by (apply length_delete, lookup_lt_is_Some_2; lia).
  assert (JsArray.rel_index (length (delete (Z.to_nat from) data)) to
          = Z.to_nat to) as Hrt.
  { rewrite Hld. unfold JsArray.rel_index.
    destruct (Z.ltb_spec to 0); lia. }
  assert (moveAt undef data from to
          = take (Z.to_nat to) (delete (Z.to_nat from) data)
            ++ JsArray.get undef data from
            :: drop (Z.to_nat to) (delete (Z.to_nat from) data)) as Hm.
  { rewrite moveAt_has by done. cbv zeta. by rewrite Hrt. }
  assert (length (take (Z.to_nat to) (delete (Z.to_nat from) data))
          = Z.to_nat to) as Hlt by (rewrite length_take; lia).
  assert (JsArray.has_index to (moveAt undef data from to) = true) as Ht'
    by (by rewrite (has_index_length _ _ data Hlen)).
  rewrite (moveAt_has _ (moveAt undef data from to) to from Ht'). cbv zeta.
  assert (delete (Z.to_nat to) (moveAt undef data from to)
          = delete (Z.to_nat from) data) as ->.
  { rewrite Hm. rewrite <- Hlt at 1. rewrite delete_middle.
    apply take_drop. }
  assert (JsArray.get undef (moveAt undef data from to) to
          = JsArray.get undef data from) as ->.
  { unfold JsArray.get at 1. destruct (Z.ltb_spec to 0); [lia|].
    rewrite Hm. rewrite <- Hlt at 1. by rewrite list_lookup_middle. }
  pose proof (moveAt_same data from Hf) as Hsame.
  rewrite moveAt_has in Hsame by done. exact Hsame.
Qed.

(** [insertAt] at or past the end is [appendAt], at [0] it is
    [prependAt]. *)
Lemma insertAt_past_end data i (v : T) :
  Z.of_nat (length data) <= i -> insertAt data i v = appendAt data v.
Proof.
  intros Hi. rewrite insertAt_take_drop. cbv zeta.
  rewrite rel_index_past by done. by rewrite take_ge, drop_ge.
Qed.

Lemma insertAt_zero data (v : T) : insertAt data 0 v = prependAt data v.
Proof.
  rewrite insertAt_take_drop. cbv zeta.
  replace (JsArray.rel_index (length data) 0) with 0%nat
    by (unfold JsArray.rel_index; simpl; lia).
  done.
Qed.

End TransformFacts.

(** * More about the controller *)

Section MoreProperties.
Context {Value : Type} (undefined : Value).
Implicit Types (st : @State Value) (m : @Mutator Value) (e : @FieldEntry Value).

Lemma insert_eq st i v :
  insert i v st
  = (Normal tt,
     {| name := name st;
        values := insertAt (values st) i v;
        calls := calls st ++
                 [SetFieldArrayValue (name st) (insertAt (values st) i v)
                    FnInsertAt {| argA := Some i; argB := None |} None];
        fields := insertAt (fields st) i
                    (Some {| key := seed st; captured := v |});
        seed := S (seed st) |}).
Proof. run_controller. by rewrite decide_True. Qed.

Lemma append_eq st v :
  append v st
  = (Normal tt,
     {| name := name st;
        values := appendAt (values st) v;
        calls := calls st ++
                 [SetFieldArrayValue (name st) (appendAt (values st) v)
                    FnAppendAt {| argA := None; argB := None |} None];
        fields := appendAt (fields st)
                    (Some {| key := seed st; captured := v |});
        seed := S (seed st) |}).
Proof. run_controller. by rewrite decide_True. Qed.

Lemma prepend_eq st v :
  prepend v st
  = (Normal tt,
     {| name := name st;
        values := prependAt (values st) v;
        calls := calls st ++
                 [SetFieldArrayValue (name st) (prependAt (values st) v)
                    FnPrependAt {| argA := None; argB := None |} None];
        fields := prependAt (fields st)
                    (Some {| key := seed st; captured := v |});
        seed := S (seed st) |}).
Proof. run_controller. by rewrite decide_True. Qed.

(** X2.  In a state whose two sequences have the same length, [swap(a, b)]
    with both indices valid, called twice, gives back the values and the
    entry list of before; each call returns normally and allocates no
    key. *)
Theorem swap_twice_restores st a b :
  length (values st) = length (fields st) ->
  JsArray.has_index a (values st) = true ->
  JsArray.has_index b (values st) = true ->
  let st1 := after undefined (Swap a b) st in
  let st2 := after undefined (Swap a b) st1 in
  values st2 = values st /\ fields st2 = fields st /\ seed st2 = seed st
  /\ values st1 = swapAt undefined (values st) a b
  /\ fields st1 = swapAt None (fields st) a b.
Proof.
  intros Hlen Ha Hb st1 st2.
  pose proof Ha as Ha'. pose proof Hb as Hb'.
  rewrite (has_index_length a _ _ Hlen) in Ha'.
  rewrite (has_index_length b _ _ Hlen) in Hb'.
  assert (values st1 = swapAt undefined (values st) a b
          /\ fields st1 = swapAt None (fields st) a b
          /\ seed st1 = seed st) as (Hv1 & Hf1 & Hs1).
  { unfold st1, after, call. by rewrite swap_eq. }
  assert (JsArray.has_index a (values st1) = true
          /\ JsArray.has_index b (values st1) = true) as [Ha1 Hb1].
  { rewrite Hv1.
    pose proof (length_swapAt undefined (values st) a b Ha Hb) as Hl.
    by rewrite !(has_index_length _ _ (values st) Hl). }
  assert (values st2 = swapAt undefined (values st1) a b
          /\ fields st2 = swapAt None (fields st1) a b
          /\ seed st2 = seed st1) as (Hv2 & Hf2 & Hs2).
  { unfold st2, after, call. by rewrite swap_eq. }
  rewrite Hv2, Hf2, Hs2, Hv1, Hf1, Hs1.
  by rewrite !swapAt_twice.
Qed.

(** X3.  In such a state, with both indices valid, [swap(a, b)] and
    [swap(b, a)] leave the same values and the same entry list, and
    [swap(a, a)] leaves both as they were, though it commits. *)
Theorem swap_index_order st a b :
  length (values st) = length (fields st) ->
  JsArray.has_index a (values st) = true ->
  JsArray.has_index b (values st) = true ->
  values (after undefined (Swap a b) st) = values (after undefined (Swap b a) st)
  /\ fields (after undefined (Swap a b) st)
     = fields (after undefined (Swap b a) st)
  /\ values (after undefined (Swap a a) st) = values st
  /\ fields (after undefined (Swap a a) st) = fields st
  /\ length (calls (after undefined (Swap a a) st)) = S (length (calls st)).
Proof.
  intros Hlen Ha Hb.
  pose proof Ha as Ha'. pose proof Hb as Hb'.
  rewrite (has_index_length a _ _ Hlen) in Ha'.
  rewrite (has_index_length b _ _ Hlen) in Hb'.
  unfold after, call. rewrite !swap_eq by done. cbn [snd values fields calls].
  rewrite (swapAt_sym undefined _ a b), (swapAt_sym None _ a b) by done.
  rewrite !swapAt_same by done.
  rewrite length_app. simpl. split_and!; try done. lia.
Qed.

(** X4.  In such a state, [move(from, to)] followed by [move(to, from)],
    both indices valid, gives back the values and the entry list of
    before. *)
Theorem move_back_restores st from to :
  length (values st) = length (fields st) ->
  JsArray.has_index from (values st) = true ->
  JsArray.has_index to (values st) = true ->
  let st1 := after undefined (Move from to) st in
  let st2 := after undefined (Move to from) st1 in
  values st2 = values st /\ fields st2 = fields st /\ seed st2 = seed st.
Proof.
  intros Hlen Hf Ht st1 st2.
  pose proof Hf as Hf'. pose proof Ht as Ht'.
  rewrite (has_index_length from _ _ Hlen) in Hf'.
  rewrite (has_index_length to _ _ Hlen) in Ht'.
  assert (values st1 = moveAt undefined (values st) from to
          /\ fields st1 = moveAt None (fields st) from to
          /\ seed st1 = seed st) as (Hv1 & Hf1 & Hs1).
  { unfold st1, after, call. by rewrite move_eq. }
  assert (JsArray.has_index to (values st1) = true) as Ht1.
  { rewrite Hv1.
    pose proof (length_moveAt undefined (values st) from to Hf) as Hl.
    by rewrite (has_index_length _ _ (values st) Hl). }
  assert (values st2 = moveAt undefined (values st1) to from
          /\ fields st2 = moveAt None (fields st1) to from
          /\ seed st2 = seed st1) as (Hv2 & Hf2 & Hs2).
  { unfold st2, after, call. by rewrite move_eq. }
  rewrite Hv2, Hf2, Hs2, Hv1, Hf1, Hs1.
  by rewrite !moveAt_back.
Qed.

(** X5.  In such a state, with [from] valid: [move(from, from)] leaves
    the values and the entry list as they were; [move(from, to)] with
    [to] at or past the last position puts the value and its entry
    last. *)
Theorem move_edge_targets st from to :
  length (values st) = length (fields st) ->
  JsArray.has_index from (values st) = true ->
  (values (after undefined (Move from from) st) = values st
   /\ fields (after undefined (Move from from) st) = fields st)
  /\ (Z.of_nat (length (values st)) - 1 <= to ->
      values (after undefined (Move from to) st)
      = delete (Z.to_nat from) (values st)
        ++ [JsArray.get undefined (values st) from]
      /\ fields (after undefined (Move from to) st)
         = delete (Z.to_nat from) (fields st)
           ++ [JsArray.get None (fields st) from]).
Proof.
  intros Hlen Hf. pose proof Hf as Hf'.
  rewrite (has_index_length from _ _ Hlen) in Hf'.
  unfold after, call. rewrite !move_eq by done. cbn [snd values fields].
  split.
  - by rewrite !moveAt_same.
  - intros Hto. rewrite !moveAt_to_end; [done | done | lia | done | done].
Qed.

(** X6.  [insert(0, v)] leaves the values, the entry list and the counter
    that [prepend(v)] leaves; in a state whose two sequences have the same
    length, [insert(i, v)] with [i] at or past the end leaves those that
    [append(v)] leaves. *)
Theorem insert_at_the_ends st i v :
  (values (after undefined (Insert 0 v) st)
   = values (after undefined (Prepend v) st)
   /\ fields (after undefined (Insert 0 v) st)
      = fields (after undefined (Prepend v) st)
   /\ seed (after undefined (Insert 0 v) st)
      = seed (after undefined (Prepend v) st))
  /\ (length (values st) = length (fields st) ->
      Z.of_nat (length (values st)) <= i ->
      values (after undefined (Insert i v) st)
      = values (after undefined (Append v) st)
      /\ fields (after undefined (Insert i v) st)
         = fields (after undefined (Append v) st)
      /\ seed (after undefined (Insert i v) st)
         = seed (after undefined (Append v) st)).
Proof.
  unfold after, call. rewrite !insert_eq, append_eq, prepend_eq.
  cbn [snd values fields seed]. split.
  - by rewrite !insertAt_zero.
  - intros Hlen Hi. rewrite !insertAt_past_end; [done | lia | done].
Qed.

End MoreProperties.

(** * The transforms do not look at the elements *)

Section Naturality.
Context {A B : Type} (f : A -> B) (ua : A) (ub : B) (Hundef : f ua = ub).
Implicit Types (data : list A) (i : Z).

Lemma fmap_get data i :
  JsArray.get ub (f <$> data) i = f (JsArray.get ua data i).
Proof.
  unfold JsArray.get. destruct (i <? 0); [done|].
  rewrite list_lookup_fmap. by destruct (data !! Z.to_nat i).
Qed.

Lemma fmap_set data i (v : A) :
  f <$> JsArray.set ua data i v = JsArray.set ub (f <$> data) i (f v).
Proof.
  unfold JsArray.set. destruct (i <? 0); [done|].
  rewrite length_fmap. destruct (Z.to_nat i <? length data)%nat.
  - apply list_fmap_insert.
  - by rewrite !fmap_app, fmap_replicate, Hundef.
Qed.

Lemma fmap_splice data i (d : nat) (items : list A) :
  JsArray.splice (f <$> data) i d (f <$> items)
  = (f <$> fst (JsArray.splice data i d items),
     f <$> snd (JsArray.splice data i d items)).
Proof.
  unfold JsArray.splice. simpl.
  by rewrite !fmap_app, !fmap_take, !fmap_drop, !length_fmap.
Qed.

Lemma fmap_swapAt data a b :
  f <$> swapAt ua data a b = swapAt ub (f <$> data) a b.
Proof. unfold swapAt. by rewrite !fmap_set, !fmap_get. Qed.

Lemma fmap_removeAt data (index : option Z) :
  f <$> removeAt data index = removeAt (f <$> data) index.
Proof.
  destruct index as [i|]; [|done]. unfold removeAt.
  pose proof (fmap_splice data i 1 []) as H. cbn [fmap list_fmap] in H.
  by rewrite H.
Qed.

Lemma fmap_moveAt data from to :
  f <$> moveAt ua data from to = moveAt ub (f <$> data) from to.
Proof.
  unfold moveAt.
  pose proof (fmap_splice data from 1 []) as H. cbn [fmap list_fmap] in H.
  rewrite H. clear H.
  destruct (JsArray.splice data from 1 []) as [removed rest].
  cbn [fst snd].
  pose proof (fmap_splice rest to 0 [JsArray.get ua removed 0]) as H.
  cbn [fmap list_fmap] in H. rewrite <- fmap_get in H. by rewrite H.
Qed.

Lemma fmap_insertAt data i (v : A) :
  f <$> insertAt data i v = insertAt (f <$> data) i (f v).
Proof.
  unfold insertAt, JsArray.slice.
  by rewrite !fmap_app, !fmap_take, !fmap_drop, !length_fmap.
Qed.

End Naturality.

(** The elements a transform leaves are elements it found. *)

Section Elements.
Context {T : Type} (undef : T).
Implicit Types (data : list T) (x : T).

Lemma get_elem_of data i :
  JsArray.has_index i data = true -> JsArray.get undef data i ∈ data.
Proof. intros Hi. eapply list_elem_of_lookup_2. by apply get_has. Qed.

Lemma elem_of_swapAt data a b x :
  JsArray.has_index a data = true -> JsArray.has_index b data = true ->
  x ∈ swapAt undef data a b -> x ∈ data.
Proof.
  intros Ha Hb Hx.
  pose proof (proj1 (has_index_spec _ _) Ha).
  pose proof (proj1 (has_index_spec _ _) Hb).
  apply list_elem_of_lookup in Hx as [n Hn].
  pose proof (lookup_lt_Some _ _ _ Hn) as Hlt.
  rewrite length_swapAt in Hlt by done.
  assert (JsArray.get undef (swapAt undef data a b) (Z.of_nat n) = x) as Hget.
  { unfold JsArray.get. destruct (Z.ltb_spec (Z.of_nat n) 0); [lia|].
    by rewrite Nat2Z.id, Hn. }
  rewrite swapAt_get in Hget by lia. subst x.
  repeat case_decide; apply get_elem_of; try done.
  apply has_index_spec. lia.
Qed.

Lemma elem_of_moveAt data from to x :
  JsArray.has_index from data = true ->
  x ∈ moveAt undef data from to -> x ∈ data.
Proof.
  intros Hf. rewrite moveAt_has by done. cbv zeta.
  rewrite elem_of_app, elem_of_cons.
  intros [Hx | [-> | Hx]].
  - apply subseteq_take in Hx. by eapply list_elem_of_delete_inv.
  - by apply get_elem_of.
  - apply subseteq_drop in Hx. by eapply list_elem_of_delete_inv.
Qed.

Lemma elem_of_removeAt data index x :
  x ∈ removeAt data index -> x ∈ data.
Proof.
  destruct index as [i|]; [|by intros ?%elem_of_nil].
  rewrite removeAt_delete. apply list_elem_of_delete_inv.
Qed.

Lemma elem_of_insertAt data i (v : T) x :
  x ∈ insertAt data i v <-> x = v \/ x ∈ data.
Proof.
  rewrite insertAt_take_drop. cbv zeta.
  set (k := JsArray.rel_index (length data) i).
  rewrite elem_of_app, elem_of_cons. split.
  - intros [H | [-> | H]]; [right | by left | right].
    + by apply subseteq_take in H.
    + by apply subseteq_drop in H.
  - intros [-> | H]; [right; by left|].
    rewrite <- (take_drop k data) in H.
    apply elem_of_app in H as [H|H]; [by left | by right; right].
Qed.

End Elements.

(** * Values and entries move together *)

Section PairedRows.
Context {Value : Type} (undefined : Value).
Implicit Types (st : @State Value) (m : @Mutator Value) (e : @FieldEntry Value).

Lemma zip_from_projections {A B} (R : list (A * B)) (l : list A) (k : list B) :
  R.*1 = l -> R.*2 = k -> zip l k = R.
Proof. intros <- <-. apply zip_fst_snd. Qed.

(** In a consistent state an entry reads the value it is paired with. *)
Lemma rows_value st e (v : Value) :
  consistent st -> (v, Some e) ∈ rows st ->
  entry_value undefined e st = (Normal v, st).
Proof.
  intros Hst Hin. unfold rows in Hin.
  apply elem_of_lookup_zip_with in Hin as (n & v' & slot & [= <- <-] & Hv & Hf).
  destruct (consistent_projection undefined st n (Some e) Hst Hf)
    as (e' & [= <-] & _ & Hval).
  rewrite Hval. unfold JsArray.get.
  destruct (Z.ltb_spec (Z.of_nat n) 0); [lia|].
  by rewrite Nat2Z.id, Hv.
Qed.

Lemma rows_of_entry st e :
  length (values st) = length (fields st) -> Some e ∈ fields st ->
  exists v : Value, (v, Some e) ∈ rows st.
Proof.
  intros Hlen Hin. apply list_elem_of_lookup in Hin as [n Hn].
  destruct (lookup_lt_is_Some_2 (values st) n) as [v Hv].
  { rewrite Hlen. by eapply lookup_lt_Some. }
  exists v. unfold rows. apply elem_of_lookup_zip_with. by exists n, v, (Some e).
Qed.

(** What each mutator does to the pairs. *)
Lemma rows_after st m :
  length (values st) = length (fields st) -> accepts m st = true ->
  let st' := after undefined m st in
  let fresh (v : Value) := (v, Some {| key := seed st; captured := v |}) in
  match m with
  | Append v => rows st' = appendAt (rows st) (fresh v)
  | Prepend v => rows st' = prependAt (rows st) (fresh v)
  | Swap a b => rows st' = swapAt (undefined, None) (rows st) a b
  | Remove index => rows st' = removeAt (rows st) index
  | Move from to => rows st' = moveAt (undefined, None) (rows st) from to
  | Insert i v => rows st' = insertAt (rows st) i (fresh v)
  | Update i v => fields st' = fields st
  | Replace vals => rows st' = zip vals (entries_from (seed st) vals)
  end.
Proof.
  intros Hlen Hacc st' fresh. unfold st', after, call, rows.
  assert ((zip (values st) (fields st)).*1 = values st) as Hfst
    by (apply fst_zip; lia).
  assert ((zip (values st) (fields st)).*2 = fields st) as Hsnd
    by (apply snd_zip; lia).
  destruct m as [v|v|a b|index|from to|i v|i v|vals]; simpl in Hacc.
  - rewrite append_eq. cbn [snd values fields]. unfold appendAt.
    by rewrite zip_with_app.
  - by rewrite prepend_eq.
  - apply andb_true_iff in Hacc as [Ha Hb].
    rewrite swap_eq by done. cbn [snd values fields].
    apply zip_from_projections.
    + by rewrite (fmap_swapAt fst (undefined, None) undefined), Hfst.
    + by rewrite (fmap_swapAt snd (undefined, None) None), Hsnd.
  - rewrite remove_eq. cbn [snd values fields].
    apply zip_from_projections.
    + by rewrite fmap_removeAt, Hfst.
    + by rewrite fmap_removeAt, Hsnd.
  - rewrite move_eq by done. cbn [snd values fields].
    apply zip_from_projections.
    + by rewrite (fmap_moveAt fst (undefined, None) undefined), Hfst.
    + by rewrite (fmap_moveAt snd (undefined, None) None), Hsnd.
  - rewrite insert_eq. cbn [snd values fields].
    apply zip_from_projections.
    + by rewrite fmap_insertAt, Hfst.
    + by rewrite fmap_insertAt, Hsnd.
  - run_controller. by repeat case_match.
  - run_controller. by rewrite map_createEntry_spec, decide_True.
Qed.

(** X7.  In a state whose two sequences have the same length, a mutator
    whose index check passes performs one transform on the sequence of
    (value, entry) pairs: what it does to the values it does to the
    entries, the new pair of [append], [prepend] and [insert] being the
    value with the entry made for it.  [update] leaves the entry list as
    it is. *)
Theorem mutators_transform_rows st m :
  length (values st) = length (fields st) -> accepts m st = true ->
  let st' := after undefined m st in
  let fresh (v : Value) := (v, Some {| key := seed st; captured := v |}) in
  match m with
  | Append v => rows st' = appendAt (rows st) (fresh v)
  | Prepend v => rows st' = prependAt (rows st) (fresh v)
  | Swap a b => rows st' = swapAt (undefined, None) (rows st) a b
  | Remove index => rows st' = removeAt (rows st) index
  | Move from to => rows st' = moveAt (undefined, None) (rows st) from to
  | Insert i v => rows st' = insertAt (rows st) i (fresh v)
  | Update i v => fields st' = fields st
  | Replace vals => rows st' = zip vals (entries_from (seed st) vals)
  end.
Proof. apply rows_after. Qed.

Lemma rows_length st :
  length (values st) = length (fields st) ->
  length (rows st) = length (values st).
Proof. intros Hlen. unfold rows. rewrite length_zip. lia. Qed.

(** X8.  In a consistent state, every mutator but [update] and [replace]
    leaves each entry that stays in the list reading the value it read
    before: the entries that [swap] and [move] reorder, those that
    [remove] keeps, those that were there before an [append], a
    [prepend] or an [insert]. *)
Theorem structural_mutators_keep_entry_values st m e :
  consistent st ->
  match m with Update _ _ | Replace _ => False | _ => True end ->
  Some e ∈ fields st -> Some e ∈ fields (after undefined m st) ->
  entry_value undefined e (after undefined m st)
  = (fst (entry_value undefined e st), after undefined m st).
Proof.
  intros Hst Hm Hold Hnew.
  pose proof Hst as (Hlen & Hsome & Hnd & Hlt).
  destruct (call_consistent undefined m st Hst) as [_ Hst'].
  pose proof Hst' as (Hlen' & _).
  destruct (rows_of_entry _ e Hlen' Hnew) as [v' Hv'].
  rewrite (rows_value _ e v' Hst' Hv').
  assert (key e < seed st)%nat as Hkey.
  { apply (proj1 (Forall_forall _ _) Hlt). unfold keys.
    apply list_elem_of_fmap_2, list_elem_of_omap. by exists (Some e). }
  assert (forall v, (v', Some e)
                    <> (v, Some {| key := seed st; captured := v |})) as Hfresh.
  { intros v [= _ ->]. simpl in Hkey. lia. }
  assert ((v', Some e) ∈ rows st) as Hin.
  { destruct (accepts m st) eqn:Hacc.
    - pose proof (rows_after st m Hlen Hacc) as Hrows.
      cbv zeta in Hrows.
      pose proof (rows_length st Hlen) as Hrl.
      destruct m as [v|v|a b|index|from to|i v|i v|vals]; try done;
        rewrite Hrows in Hv'; simpl in Hacc.
      + unfold appendAt in Hv'. apply elem_of_app in Hv' as [?|Hv']; [done|].
        apply list_elem_of_singleton in Hv'. by apply Hfresh in Hv'.
      + unfold prependAt in Hv'. apply elem_of_cons in Hv' as [Hv'|?]; [|done].
        by apply Hfresh in Hv'.
      + apply andb_true_iff in Hacc as [Ha Hb].
        eapply elem_of_swapAt; [| |exact Hv'];
          by rewrite (has_index_length _ _ (values st) Hrl).
      + by eapply elem_of_removeAt.
      + eapply elem_of_moveAt; [|exact Hv'].
        by rewrite (has_index_length _ _ (values st) Hrl).
      + apply elem_of_insertAt in Hv' as [Hv'|?]; [|done].
        by apply Hfresh in Hv'.
    - assert (after undefined m st = st) as Heq.
      { unfold after, call.
        destruct m as [v|v|a b|index|from to|i v|i v|vals]; try done;
          simpl in Hacc.
        - rewrite swap_rejected; [done|].
          by apply andb_false_iff in Hacc.
        - by rewrite move_rejected. }
      by rewrite Heq in Hv'. }
  by rewrite (rows_value _ e v' Hst Hin).
Qed.

End PairedRows.

(** * Entries that leave the list, and writes *)

Section Handles.
Context {Value : Type} (undefined : Value).
Implicit Types (st : @State Value) (m : @Mutator Value) (e : @FieldEntry Value).

(** What a stale entry does: it reads the value it captured and drops
    writes. *)
Lemma stale_entry st e (v : Value) :
  Forall is_Some (fields st) -> key e ∉ keys st ->
  entry_index e st = (Normal (-1), st)
  /\ entry_value undefined e st = (Normal (captured e), st)
  /\ set_entry_value undefined e v st = (Normal tt, st).
Proof.
  intros Hsome Hk.
  pose proof (stale_entry_index st e Hsome Hk) as Hidx.
  split; [done|].
  unfold entry_value, set_entry_value, bind. by rewrite Hidx.
Qed.


(** X10.  In a consistent state, after [replace(vals)], and likewise
    after [reset], no entry of the former list is in the list: each
    derives the index [-1], reads the value it captured and drops writes.
    The new list has one entry per value, made in order from the counter
    on. *)
Theorem rebuilding_invalidates_entries st (vals : list Value) e (v : Value) :
  consistent st -> Some e ∈ fields st ->
  let st1 := after undefined (Replace vals) st in
  let st2 := snd (reset st) in
  (values st1 = vals /\ fields st1 = entries_from (seed st) vals
   /\ entry_index e st1 = (Normal (-1), st1)
   /\ entry_value undefined e st1 = (Normal (captured e), st1)
   /\ set_entry_value undefined e v st1 = (Normal tt, st1))
  /\ (values st2 = values st
      /\ fields st2 = entries_from (seed st) (values st)
      /\ entry_index e st2 = (Normal (-1), st2)
      /\ entry_value undefined e st2 = (Normal (captured e), st2)
      /\ set_entry_value undefined e v st2 = (Normal tt, st2)).
Proof.
  intros Hst He st1 st2. pose proof Hst as (_ & _ & _ & Hlt).
  assert (key e < seed st)%nat as Hkey.
  { apply (proj1 (Forall_forall _ _) Hlt). unfold keys.
    apply list_elem_of_fmap_2, list_elem_of_omap. by exists (Some e). }
  assert (values st1 = vals /\ fields st1 = entries_from (seed st) vals)
    as [Hv1 Hf1].
  { unfold st1. run_controller.
    by rewrite map_createEntry_spec, decide_True. }
  assert (values st2 = values st
          /\ fields st2 = entries_from (seed st) (values st)) as [Hv2 Hf2].
  { unfold st2. run_controller. by rewrite map_createEntry_spec. }
  split; (split; [done|]; split; [done|]); apply stale_entry.
  - rewrite Hf1. apply entries_from_all_Some.
  - unfold keys. rewrite Hf1, entries_from_keys, elem_of_seq. lia.
  - rewrite Hf2. apply entries_from_all_Some.
  - unfold keys. rewrite Hf2, entries_from_keys, elem_of_seq. lia.
Qed.

(** X11.  In a consistent state, [update(i, v)] with a valid [i] returns
    normally, puts [v] at position [i] of the values and leaves the other
    values, the entry list and the counter as they were; the form context
    receives the commit and then the point write of the setter; the
    entry at [i] reads [v] afterwards. *)
Theorem update_valid_index st i e (v : Value) :
  consistent st ->
  JsArray.has_index i (values st) = true ->
  fields st !! Z.to_nat i = Some (Some e) ->
  let st' := after undefined (Update i v) st in
  fst (call undefined (Update i v) st) = Normal tt
  /\ values st' = <[Z.to_nat i := v]> (values st)
  /\ fields st' = fields st
  /\ seed st' = seed st
  /\ calls st'
     = calls st ++
       [SetFieldArrayValue (name st) (<[Z.to_nat i := v]> (values st))
          FnUpdateAt {| argA := Some i; argB := None |} None;
        SetFieldValue (field_path (name st) i) v]
  /\ entry_value undefined e st' = (Normal v, st').
Proof.
  intros Hst Hi He st'. pose proof Hst as (Hlen & Hsome & Hnd & Hlt).
  pose proof Hi as Hi'. rewrite (has_index_length _ _ _ Hlen) in Hi'.
  pose proof (proj1 (has_index_spec _ _) Hi) as Hr.
  destruct (all_Some_get _ _ Hsome Hi') as (e' & He' & Hlook).
  rewrite He in Hlook. injection Hlook as <-.
  assert (call undefined (Update i v) st
          = (Normal tt,
             {| name := name st;
                values := <[Z.to_nat i := v]> (values st);
                calls := calls st ++
                  [SetFieldArrayValue (name st)
                     (<[Z.to_nat i := v]> (values st))
                     FnUpdateAt {| argA := Some i; argB := None |} None;
                   SetFieldValue (field_path (name st) i) v];
                fields := fields st; seed := seed st |})) as Hcall.
  { unfold call, update, bind, get_name, get_values. simpl. rewrite Hi. simpl.
    unfold setFieldArrayValue, get_fields. simpl. rewrite He'.
    unfold set_entry_value, bind.
    set (st1 := {| name := name st |}).
    assert (consistent st1) as Hst1.
    { unfold consistent, keys, st1. simpl. rewrite decide_True by done.
      unfold updateAt. by rewrite length_set. }
    rewrite (consistent_index st1 (Z.to_nat i) e Hst1 He).
    rewrite Z2Nat.id by lia.
    destruct (Z.eqb_spec i (-1)); [lia|].
    run_controller. rewrite index_of_path_field_path.
    rewrite decide_True by done. unfold updateAt.
    rewrite (set_has _ _ (values st)) by done.
    rewrite set_has
      by (rewrite <- Hi; apply has_index_length; by rewrite length_insert).
    by rewrite list_insert_insert_eq, <- app_assoc. }
  unfold st', after. rewrite Hcall. cbn [fst snd values fields seed calls].
  split_and!; try done.
  set (st2 := {| name := name st |}).
  assert (consistent st2) as Hst2.
  { unfold consistent, keys, st2. simpl. by rewrite length_insert. }
  destruct (consistent_projection undefined st2 (Z.to_nat i) (Some e) Hst2 He)
    as (e' & [= <-] & _ & Hval).
  rewrite Hval. do 2 f_equal. unfold st2. cbn [values].
  rewrite Z2Nat.id by lia.
  pose proof (get_has undefined i (<[Z.to_nat i := v]> (values st))) as Hg.
  rewrite list_lookup_insert_eq in Hg by lia.
  symmetry. apply (inj Some). apply Hg.
  rewrite <- Hi. apply has_index_length. by rewrite length_insert.
Qed.

(** X12.  [update(i, v)] with [i] valid for the values, in a state whose
    entry list has no entry at [i] (the list is shorter, or the slot is
    [undefined]), commits the new values and then throws a [TypeError]:
    the values have changed, the entry list has not. *)
Theorem update_without_entry_throws st i (v : Value) :
  JsArray.has_index i (values st) = true ->
  JsArray.get None (fields st) i = None ->
  fst (call undefined (Update i v) st) = Throw TypeError
  /\ values (after undefined (Update i v) st)
     = <[Z.to_nat i := v]> (values st)
  /\ fields (after undefined (Update i v) st) = fields st
  /\ length (calls (after undefined (Update i v) st)) = S (length (calls st)).
Proof.
  intros Hi Hnone. unfold after, call, update, bind, get_name, get_values.
  simpl. rewrite Hi. simpl. unfold get_fields. simpl. rewrite Hnone.
  unfold throw. simpl. rewrite decide_True by done.
  unfold updateAt. rewrite set_has by done.
  rewrite length_app. simpl. split_and!; try done. lia.
Qed.

(** Scanning a list without [undefined] slots does not throw, and what it
    finds is a position of the list. *)
Lemma findIndex_key_range (fs : list (option (@FieldEntry Value))) k j :
  Forall is_Some fs ->
  exists idx, findIndex_key k fs j = Normal idx
    /\ (idx = -1 \/ j <= idx < j + Z.of_nat (length fs)).
Proof.
  intros Hsome. revert j.
  induction Hsome as [|slot fs [e' ->] _ IH]; intros j; simpl.
  - exists (-1). auto.
  - destruct (Nat.eqb (key e') k).
    + exists j. split; [done|]. right. lia.
    + destruct (IH (j + 1)) as (idx & -> & Hidx). exists idx.
      split; [done|]. lia.
Qed.

(** Assigning to the [value] of any entry, in the list or not, keeps a
    consistent state consistent. *)
Lemma write_consistent st e (v : Value) :
  consistent st ->
  fst (set_entry_value undefined e v st) = Normal tt
  /\ consistent (snd (set_entry_value undefined e v st)).
Proof.
  intros Hst. pose proof Hst as (Hlen & Hsome & Hnd & Hlt).
  destruct (findIndex_key_range (fields st) (key e) 0 Hsome)
    as (idx & Hidx & Hrange).
  unfold set_entry_value, bind, entry_index. rewrite Hidx.
  destruct (Z.eqb_spec idx (-1)); [done|].
  run_controller. rewrite index_of_path_field_path. split; [done|].
  unfold consistent, keys. simpl. split_and!; try done.
  rewrite length_set; [done|]. apply has_index_spec. lia.
Qed.

(** X13.  In a consistent state, such as [useFieldArray] leaves over
    an array without holes, whatever the user and the form context do
    next - calls of the eight mutators with any arguments, [reset],
    assignments to the [value] of any entry, stale or not - nothing
    throws, and the state stays consistent: one entry per value, no key
    twice, every key below the counter. *)
Theorem events_keep_consistent st (evs : list (@Event Value)) :
  consistent st ->
  fst (run_all undefined evs st) = Normal tt
  /\ consistent (snd (run_all undefined evs st)).
Proof.
  revert st. induction evs as [|ev evs IH]; intros st Hst.
  - done.
  - simpl.
    assert (fst (run undefined ev st) = Normal tt
            /\ consistent (snd (run undefined ev st))) as [Hret Hst'].
    { destruct ev as [m| |e v]; simpl.
      - by apply call_consistent.
      - split; [|apply reset_consistent].
        run_controller. by rewrite map_createEntry_spec.
      - by apply write_consistent. }
    destruct (run undefined ev st) as [[[]|err] st']; [|done].
    by apply IH.
Qed.

(** X14.  In a consistent state, assigning [v] to the [value] of the
    entry at position [i] puts [v] at position [i] of the values and
    leaves the entry list as it is; that entry reads [v] afterwards, and
    every other entry of the list reads what it read before. *)
Theorem entry_write_then_read st (i : nat) e (v : Value) :
  consistent st -> fields st !! i = Some (Some e) ->
  let st' := snd (set_entry_value undefined e v st) in
  values st' = <[i := v]> (values st)
  /\ fields st' = fields st
  /\ entry_value undefined e st' = (Normal v, st')
  /\ (forall (j : nat) e', j <> i -> fields st !! j = Some (Some e') ->
        entry_value undefined e' st'
        = (fst (entry_value undefined e' st), st')).
Proof.
  intros Hst He st'. pose proof Hst as (Hlen & Hsome & Hnd & Hlt).
  pose proof (lookup_lt_Some _ _ _ He) as Hi.
  assert (JsArray.has_index (Z.of_nat i) (values st) = true) as Hhas
    by (apply has_index_spec; lia).
  assert (values st' = <[i := v]> (values st) /\ fields st' = fields st)
    as [Hv Hf].
  { unfold st', set_entry_value, bind.
    rewrite (consistent_index st i e Hst He).
    destruct (Z.eqb_spec (Z.of_nat i) (-1)); [lia|].
    run_controller. rewrite index_of_path_field_path.
    by rewrite set_has, Nat2Z.id. }
  assert (consistent st') as Hst'
    by (apply (write_consistent st e v Hst)).
  split; [done|]. split; [done|]. split.
  - rewrite <- Hf in He.
    destruct (consistent_projection undefined st' i (Some e) Hst' He)
      as (e' & [= <-] & _ & Hval).
    rewrite Hval. do 2 f_equal. rewrite Hv. unfold JsArray.get.
    destruct (Z.ltb_spec (Z.of_nat i) 0); [lia|].
    by rewrite Nat2Z.id, list_lookup_insert_eq by lia.
  - intros j e' Hji He'.
    destruct (consistent_projection undefined st j (Some e') Hst He')
      as (e1 & [= <-] & _ & Hval).
    rewrite <- Hf in He'.
    destruct (consistent_projection undefined st' j (Some e') Hst' He')
      as (e2 & [= <-] & _ & Hval').
    rewrite Hval, Hval'. cbn [fst]. do 2 f_equal. rewrite Hv.
    unfold JsArray.get. destruct (Z.ltb_spec (Z.of_nat j) 0); [lia|].
    by rewrite Nat2Z.id, list_lookup_insert_ne by done.
Qed.

End Handles.

(** * Keys, positions and the empty array *)

Section Positions.
Context {Value : Type} (undefined : Value).
Implicit Types (st : @State Value) (m : @Mutator Value) (e : @FieldEntry Value).

Lemma update_fields_seed st i (v : Value) :
  fields (after undefined (Update i v) st) = fields st
  /\ seed (after undefined (Update i v) st) = seed st.
Proof. run_controller. by repeat case_match. Qed.

Lemma entries_of_entries_from k (vals : list Value) e :
  e ∈ entries (entries_from k vals) ->
  (k <= key e < k + length vals)%nat.
Proof.
  intros He. apply (list_elem_of_fmap_2 key) in He.
  rewrite entries_from_keys, elem_of_seq in He. lia.
Qed.

(** X15.  In any state, whatever the arguments: [append], [prepend] and
    [insert] move the counter up by one, [replace] by the number of
    values it is given, the other mutators not at all; and every entry
    of the list after the call either was an entry of the list before
    it, with the key it had, or has a key from the counter of before up
    to the counter of after.  No mutator gives an entry another key. *)
Theorem mutators_allocate_only_new_keys st m :
  seed (after undefined m st)
  = (seed st + match m with
               | Append _ | Prepend _ | Insert _ _ => 1
               | Replace vals => length vals
               | _ => 0
               end)%nat
  /\ (forall e, e ∈ entries (fields (after undefined m st)) ->
        e ∈ entries (fields st)
        \/ (seed st <= key e < seed (after undefined m st))%nat).
Proof.
  destruct m as [v|v|a b|index|from to|i v|i v|vals]; unfold after, call.
  - rewrite append_eq. cbn [snd fields seed]. split; [lia|].
    intros e. unfold appendAt. rewrite entries_app, elem_of_app. simpl.
    rewrite list_elem_of_singleton. intros [?| ->]; [by left | right; simpl; lia].
  - rewrite prepend_eq. cbn [snd fields seed]. split; [lia|].
    intros e. unfold prependAt. simpl. rewrite elem_of_cons.
    intros [-> | ?]; [right; simpl; lia | by left].
  - destruct (accepts (Swap a b) st) eqn:Hacc; simpl in Hacc.
    + apply andb_true_iff in Hacc as [Ha Hb].
      rewrite swap_eq by done. cbn [snd fields seed].
      split; [lia|]. intros e He. left.
      apply has_index_spec in Ha, Hb.
      by rewrite entries_swapAt in He by lia.
    + rewrite swap_rejected by (by apply andb_false_iff in Hacc).
      split; [simpl; lia | by left].
  - rewrite remove_eq. cbn [snd fields seed]. split; [lia|].
    intros e He. left.
    destruct (entries_removeAt (fields st) index) as [gone Hgone].
    rewrite Hgone, elem_of_app. by right.
  - destruct (JsArray.has_index from (values st)) eqn:Hf.
    + rewrite move_eq by done. cbn [snd fields seed].
      split; [lia|]. intros e He. left. by rewrite entries_moveAt in He.
    + rewrite move_rejected by done. split; [simpl; lia | by left].
  - rewrite insert_eq. cbn [snd fields seed]. split; [lia|].
    intros e. rewrite entries_insertAt, elem_of_cons.
    intros [-> | ?]; [right; simpl; lia | by left].
  - destruct (update_fields_seed st i v) as [Hf Hs].
    unfold after, call in Hf, Hs. rewrite Hf, Hs.
    split; [lia | by left].
  - run_controller. rewrite map_createEntry_spec. simpl. split; [done|].
    intros e He. right. by apply entries_of_entries_from.
Qed.

(** X16.  On the empty array: [swap], [move] and [update] change nothing
    and make no call, whatever the indices; [remove] leaves both
    sequences empty, with or without an index; [insert] puts the value
    and its new entry first, whatever the index. *)
Theorem mutators_on_empty_array st :
  values st = [] -> fields st = [] ->
  (forall a b, call undefined (Swap a b) st = (Normal tt, st))
  /\ (forall from to, call undefined (Move from to) st = (Normal tt, st))
  /\ (forall i v, call undefined (Update i v) st = (Normal tt, st))
  /\ (forall index,
        values (after undefined (Remove index) st) = []
        /\ fields (after undefined (Remove index) st) = [])
  /\ (forall i (v : Value),
        values (after undefined (Insert i v) st) = [v]
        /\ fields (after undefined (Insert i v) st)
           = [Some {| key := seed st; captured := v |}]).
Proof.
  intros Hv Hf.
  assert (forall i, JsArray.has_index i (values st) = false) as Hno.
  { intros i. rewrite Hv. apply has_index_false. simpl. lia. }
  split_and!.
  - intros a b. apply swap_rejected. auto.
  - intros from to. by apply move_rejected.
  - intros i v. by apply update_rejected.
  - intros index. unfold after, call. rewrite remove_eq.
    cbn [snd values fields]. rewrite Hv, Hf.
    destruct index as [i|]; [|done].
    by rewrite !removeAt_delete, !delete_take_drop, !take_nil, !drop_nil.
  - intros i v. unfold after, call. rewrite insert_eq.
    cbn [snd values fields]. rewrite Hv, Hf.
    rewrite !insertAt_take_drop. cbv zeta.
    by rewrite !take_nil, !drop_nil.
Qed.

(** X17.  In a consistent state, after [swap(a, b)] with both indices
    valid, the entry that was at position [a] is named
    ["<arrayName>.<b>"] and the entry that was at [b] is named
    ["<arrayName>.<a>"]. *)
Theorem swap_renames_entries st a b ea eb :
  consistent st ->
  fields st !! Z.to_nat a = Some (Some ea) ->
  fields st !! Z.to_nat b = Some (Some eb) ->
  0 <= a -> 0 <= b ->
  let st' := after undefined (Swap a b) st in
  entry_name ea st' = (Normal (field_path (name st) b), st')
  /\ entry_name eb st' = (Normal (field_path (name st) a), st').
Proof.
  intros Hst Ha Hb Ha0 Hb0 st'. pose proof Hst as (Hlen & _).
  pose proof (lookup_lt_Some _ _ _ Ha) as Hla.
  pose proof (lookup_lt_Some _ _ _ Hb) as Hlb.
  assert (JsArray.has_index a (fields st) = true) as Hfa
    by (apply has_index_spec; lia).
  assert (JsArray.has_index b (fields st) = true) as Hfb
    by (apply has_index_spec; lia).
  assert (JsArray.has_index a (values st) = true) as Hva
    by (by rewrite (has_index_length _ _ _ Hlen)).
  assert (JsArray.has_index b (values st) = true) as Hvb
    by (by rewrite (has_index_length _ _ _ Hlen)).
  destruct (call_consistent undefined (Swap a b) st Hst) as [_ Hst'].
  fold st' in Hst'.
  assert (fields st' = swapAt None (fields st) a b) as Hf
    by (unfold st', after, call; by rewrite swap_eq).
  pose proof (length_swapAt None (fields st) a b Hfa Hfb) as Hl.
  pose proof (get_has None _ _ Hfa) as Hga. rewrite Ha in Hga.
  pose proof (get_has None _ _ Hfb) as Hgb. rewrite Hb in Hgb.
  injection Hga as Hga. injection Hgb as Hgb.
  assert (fields st' !! Z.to_nat b = Some (Some ea)) as Hb'.
  { rewrite Hf, (get_has None) by (by rewrite (has_index_length _ _ _ Hl)).
    rewrite swapAt_get by done.
    destruct (decide (b = a)) as [->|_]; [|rewrite decide_True by done];
      by rewrite <- Hga. }
  assert (fields st' !! Z.to_nat a = Some (Some eb)) as Ha'.
  { rewrite Hf, (get_has None) by (by rewrite (has_index_length _ _ _ Hl)).
    rewrite swapAt_get by done.
    rewrite decide_True by done. by rewrite <- Hgb. }
  pose proof (after_name undefined (Swap a b) st) as Hname. fold st' in Hname.
  destruct (consistent_projection undefined st' _ _ Hst' Hb')
    as (? & [= <-] & Hnb & _).
  destruct (consistent_projection undefined st' _ _ Hst' Ha')
    as (? & [= <-] & Hna & _).
  rewrite Hnb, Hna, Hname, !Z2Nat.id by lia. done.
Qed.

(** X18.  In a consistent state of [n] values, after [move(from, to)]
    with [from] valid, the entry that was at [from] is named after the
    position [splice] gives [to] in the [n - 1] values left: [to] itself
    when [0 <= to <= n - 1], [n - 1] when [to] is larger, and
    [max (n - 1 + to) 0] when [to] is negative. *)
Theorem move_renames_entry st from to e :
  consistent st ->
  fields st !! Z.to_nat from = Some (Some e) -> 0 <= from ->
  let st' := after undefined (Move from to) st in
  let n := Z.of_nat (length (values st)) in
  let target := if to <? 0 then Z.max (n - 1 + to) 0 else Z.min to (n - 1) in
  entry_name e st' = (Normal (field_path (name st) target), st')
  /\ fields st' !! Z.to_nat target = Some (Some e).
Proof.
  intros Hst He Hf0 st' n target. pose proof Hst as (Hlen & _).
  pose proof (lookup_lt_Some _ _ _ He) as Hl.
  assert (JsArray.has_index from (fields st) = true) as Hff
    by (apply has_index_spec; lia).
  assert (JsArray.has_index from (values st) = true) as Hvf
    by (by rewrite (has_index_length _ _ _ Hlen)).
  destruct (call_consistent undefined (Move from to) st Hst) as [_ Hst'].
  fold st' in Hst'.
  assert (length (delete (Z.to_nat from) (fields st))
          = (length (fields st) - 1)%nat) as Hld
    by (apply length_delete; eauto).
  assert (JsArray.rel_index (length (delete (Z.to_nat from) (fields st))) to
          = Z.to_nat target) as Hrel.
  { rewrite Hld. unfold JsArray.rel_index, target, n. rewrite Hlen.
    destruct (Z.ltb_spec to 0); lia. }
  assert (fields st' !! Z.to_nat target = Some (Some e)) as Ht.
  { unfold st', after, call. rewrite move_eq by done. cbn [snd fields].
    rewrite moveAt_has by done. cbv zeta. rewrite Hrel.
    pose proof (get_has None _ _ Hff) as Hg. rewrite He in Hg.
    injection Hg as <-.
    assert (length (take (Z.to_nat target)
                      (delete (Z.to_nat from) (fields st)))
            = Z.to_nat target) as Hlt.
    { rewrite length_take, Hld. unfold target, n. rewrite Hlen.
      destruct (Z.ltb_spec to 0); lia. }
    rewrite <- Hlt at 1. by rewrite list_lookup_middle. }
  split; [|done].
  pose proof (after_name undefined (Move from to) st) as Hname.
  fold st' in Hname.
  destruct (consistent_projection undefined st' _ _ Hst' Ht)
    as (? & [= <-] & Hn & _).
  rewrite Hn, Hname, Z2Nat.id; [done|].
  unfold target, n. destruct (Z.ltb_spec to 0); lia.
Qed.

Lemma field_path_inj (n : string) (i j : Z) :
  field_path n i = field_path n j -> i = j.
Proof.
  intros H. apply (f_equal (index_of_path n)) in H.
  rewrite !index_of_path_field_path in H. by injection H.
Qed.

(** X19.  In a consistent state the entries at two different positions
    of the list have different names, and different keys. *)
Theorem entry_names_distinct st (i j : nat) e e' :
  consistent st ->
  fields st !! i = Some (Some e) -> fields st !! j = Some (Some e') ->
  i <> j ->
  fst (entry_name e st) <> fst (entry_name e' st) /\ key e <> key e'.
Proof.
  intros Hst Hi Hj Hne. split.
  - destruct (consistent_projection undefined st i _ Hst Hi)
      as (? & [= <-] & Hn & _).
    destruct (consistent_projection undefined st j _ Hst Hj)
      as (? & [= <-] & Hn' & _).
    rewrite Hn, Hn'. cbn [fst]. intros [= H%field_path_inj]. lia.
  - intros Hk.
    pose proof (consistent_index st i e Hst Hi) as Hidx.
    pose proof (consistent_index st j e' Hst Hj) as Hidx'.
    unfold entry_index in Hidx, Hidx'. rewrite Hk in Hidx.
    rewrite Hidx in Hidx'. injection Hidx' as H. lia.
Qed.

End Positions.

(** * The further properties on the form of the documentation *)

Lemma swapAt_exchanges_foods :
  0 <= 0 < 4294967295 /\ 0 <= 4 < 4294967295
  /\ JsArray.get None (swapAt None (values foods) 0 4) 4 = Some "Bubble Tea"
  /\ JsArray.get None (swapAt None (values foods) 0 4) 0 = None.
Proof.
  assert (0 <= 0 < 4294967295) as H0
    by (vm_compute; split; [discriminate | reflexivity]).
  assert (0 <= 4 < 4294967295) as H4
    by (vm_compute; split; [discriminate | reflexivity]).
  split; [exact H0|]. split; [exact H4|].
  destruct (swapAt_exchanges None (values foods) 0 4 4 H0 H4) as [Hg4 _].
  destruct (swapAt_exchanges None (values foods) 0 4 0 H0 H4) as [Hg0 _].
  rewrite Hg4, Hg0. split; reflexivity.
Defined.

Lemma swap_twice_restores_foods :
  length (values foods) = length (fields foods)
  /\ values (after None (Swap 0 2) (after None (Swap 0 2) foods)) = values foods
  /\ fields (after None (Swap 0 2) (after None (Swap 0 2) foods)) = fields foods.
Proof.
  split; [reflexivity|].
  destruct (swap_twice_restores None foods 0 2 eq_refl eq_refl eq_refl)
    as (Hv & Hf & _).
  split; [exact Hv | exact Hf].
Defined.

Lemma swap_index_order_foods :
  JsArray.has_index 0 (values foods) = true
  /\ JsArray.has_index 2 (values foods) = true
  /\ values (after None (Swap 0 2) foods) = values (after None (Swap 2 0) foods)
  /\ fields (after None (Swap 0 0) foods) = fields foods.
Proof.
  split; [reflexivity|]. split; [reflexivity|].
  destruct (swap_index_order None foods 0 2 eq_refl eq_refl eq_refl)
    as (Hv & _ & _ & Hf & _).
  split; [exact Hv | exact Hf].
Defined.

Lemma move_back_restores_foods :
  JsArray.has_index 2 (values foods) = true
  /\ JsArray.has_index 1 (values foods) = true
  /\ values (after None (Move 1 2) (after None (Move 2 1) foods)) = values foods
  /\ fields (after None (Move 1 2) (after None (Move 2 1) foods)) = fields foods.
Proof.
  split; [reflexivity|]. split; [reflexivity|].
  destruct (move_back_restores None foods 2 1 eq_refl eq_refl eq_refl)
    as (Hv & Hf & _).
  split; [exact Hv | exact Hf].
Defined.

Lemma move_edge_targets_foods :
  JsArray.has_index 0 (values foods) = true
  /\ values (after None (Move 0 0) foods) = values foods
  /\ values (after None (Move 0 9) foods)
     = [Some "Stinky Tofu"; Some "Scallion Pancake"; Some "Bubble Tea"].
Proof.
  split; [reflexivity|].
  destruct (move_edge_targets None foods 0 9 eq_refl eq_refl)
    as [[Hsame _] Hend].
  split; [exact Hsame|].
  destruct Hend as [Hv _]; [vm_compute; discriminate|].
  rewrite Hv. reflexivity.
Defined.

Lemma insert_at_the_ends_foods :
  Z.of_nat (length (values foods)) <= 7
  /\ fields (after None (Insert 7 (Some "Tea")) foods)
     = fields (after None (Append (Some "Tea")) foods)
  /\ fields (after None (Insert 0 (Some "Tea")) foods)
     = fields (after None (Prepend (Some "Tea")) foods).
Proof.
  assert (Z.of_nat (length (values foods)) <= 7) as H7
    by (vm_compute; discriminate).
  split; [exact H7|].
  destruct (insert_at_the_ends None foods 7 (Some "Tea"))
    as [(_ & Hp & _) Hend].
  destruct (Hend eq_refl H7) as (_ & Ha & _).
  split; [exact Ha | exact Hp].
Defined.

Lemma mutators_transform_rows_foods :
  accepts (Move 0 2) foods = true
  /\ rows (after None (Move 0 2) foods) = moveAt (None, None) (rows foods) 0 2.
Proof.
  split; [reflexivity|].
  exact (mutators_transform_rows None foods (Move 0 2) eq_refl eq_refl).
Defined.

Lemma structural_mutators_keep_entry_values_foods :
  Some {| key := 1; captured := Some "Stinky Tofu" |} ∈ fields foods
  /\ fst (entry_value None {| key := 1; captured := Some "Stinky Tofu" |}
            (after None (Remove (Some 0)) foods))
     = Normal (Some "Stinky Tofu").
Proof.
  assert (Some {| key := 1; captured := Some "Stinky Tofu" |} ∈ fields foods)
    as Hin by (apply list_elem_of_lookup; exists 1%nat; reflexivity).
  assert (Some {| key := 1; captured := Some "Stinky Tofu" |}
          ∈ fields (after None (Remove (Some 0)) foods))
    as Hin' by (apply list_elem_of_lookup; exists 0%nat; reflexivity).
  split; [exact Hin|].
  rewrite (structural_mutators_keep_entry_values None foods (Remove (Some 0))
             _ foods_consistent I Hin Hin').
  reflexivity.
Defined.


Lemma rebuilding_invalidates_entries_foods :
  Some {| key := 2; captured := Some "Scallion Pancake" |} ∈ fields foods
  /\ fst (entry_index {| key := 2; captured := Some "Scallion Pancake" |}
            (after None (Replace [Some "Tea"; Some "Rice"; Some "Soup"]) foods))
     = Normal (-1)
  /\ keys (after None (Replace [Some "Tea"; Some "Rice"; Some "Soup"]) foods)
     = [3; 4; 5]%nat.
Proof.
  assert (Some {| key := 2; captured := Some "Scallion Pancake" |} ∈ fields foods)
    as Hin by (apply list_elem_of_lookup; exists 2%nat; reflexivity).
  split; [exact Hin|].
  destruct (rebuilding_invalidates_entries None foods
              [Some "Tea"; Some "Rice"; Some "Soup"] _ None
              foods_consistent Hin) as [(_ & Hf & Hi & _) _].
  split; [rewrite Hi; reflexivity|].
  unfold keys. rewrite Hf. reflexivity.
Defined.

Lemma update_valid_index_foods :
  JsArray.has_index 2 (values foods) = true
  /\ values (after None (Update 2 (Some "Tea")) foods)
     = [Some "Bubble Tea"; Some "Stinky Tofu"; Some "Tea"]
  /\ fst (entry_value None {| key := 2; captured := Some "Scallion Pancake" |}
            (after None (Update 2 (Some "Tea")) foods))
     = Normal (Some "Tea").
Proof.
  split; [reflexivity|].
  destruct (update_valid_index None foods 2
              {| key := 2; captured := Some "Scallion Pancake" |} (Some "Tea")
              foods_consistent eq_refl eq_refl) as (_ & Hv & _ & _ & _ & He).
  split; [rewrite Hv; reflexivity | rewrite He; reflexivity].
Defined.

(** A state the mutators do not reach: the values at ["foods"] have been
    replaced in the form context and [reset] has not run. *)
Lemma update_without_entry_throws_longer_values :
  let st := {| name := "foods";
               values := [Some "Tea"; Some "Rice"];
               calls := [];
               fields := [Some {| key := 0; captured := Some "Tea" |}];
               seed := 1 |} in
  JsArray.has_index 1 (values st) = true
  /\ JsArray.get None (fields st) 1 = None
  /\ fst (call None (Update 1 (Some "Soup")) st) = Throw TypeError
  /\ values (after None (Update 1 (Some "Soup")) st)
     = [Some "Tea"; Some "Soup"].
Proof.
  intros st. split; [reflexivity|]. split; [reflexivity|].
  destruct (update_without_entry_throws None st 1 (Some "Soup")
              eq_refl eq_refl) as (Hthrow & Hv & _).
  split; [exact Hthrow|]. rewrite Hv. reflexivity.
Defined.

Lemma entry_write_then_read_foods :
  fields foods !! 0%nat = Some (Some {| key := 0; captured := Some "Bubble Tea" |})
  /\ values (snd (set_entry_value None
                    {| key := 0; captured := Some "Bubble Tea" |}
                    (Some "Milk Tea") foods))
     = [Some "Milk Tea"; Some "Stinky Tofu"; Some "Scallion Pancake"].
Proof.
  split; [reflexivity|].
  destruct (entry_write_then_read None foods 0
              {| key := 0; captured := Some "Bubble Tea" |} (Some "Milk Tea")
              foods_consistent eq_refl) as (Hv & _).
  rewrite Hv. reflexivity.
Defined.

Lemma mutators_on_empty_array_witness :
  let st := useFieldArray "foods" (@nil (option string)) in
  values st = [] /\ fields st = []
  /\ call None (Swap 0 0) st = (Normal tt, st)
  /\ values (after None (Insert 5 (Some "Tea")) st) = [Some "Tea"].
Proof.
  intros st. split; [reflexivity|]. split; [reflexivity|].
  destruct (mutators_on_empty_array None st eq_refl eq_refl)
    as (Hswap & _ & _ & _ & Hins).
  split; [apply Hswap | apply Hins].
Defined.

Lemma swap_renames_entries_foods :
  fields foods !! Z.to_nat 0
  = Some (Some {| key := 0; captured := Some "Bubble Tea" |})
  /\ fields foods !! Z.to_nat 2
     = Some (Some {| key := 2; captured := Some "Scallion Pancake" |})
  /\ fst (entry_name {| key := 0; captured := Some "Bubble Tea" |}
            (after None (Swap 0 2) foods))
     = Normal "foods.2".
Proof.
  split; [reflexivity|]. split; [reflexivity|].
  assert (0 <= 0) as H0 by (vm_compute; discriminate).
  assert (0 <= 2) as H2 by (vm_compute; discriminate).
  destruct (swap_renames_entries None foods 0 2
              {| key := 0; captured := Some "Bubble Tea" |}
              {| key := 2; captured := Some "Scallion Pancake" |}
              foods_consistent eq_refl eq_refl H0 H2) as [Hn _].
  rewrite Hn. reflexivity.
Defined.

Lemma move_renames_entry_foods :
  fields foods !! Z.to_nat 0
  = Some (Some {| key := 0; captured := Some "Bubble Tea" |})
  /\ fst (entry_name {| key := 0; captured := Some "Bubble Tea" |}
            (after None (Move 0 (-1)) foods))
     = Normal "foods.1"
  /\ fst (entry_name {| key := 0; captured := Some "Bubble Tea" |}
            (after None (Move 0 9) foods))
     = Normal "foods.2".
Proof.
  split; [reflexivity|].
  assert (0 <= 0) as H0 by (vm_compute; discriminate).
  destruct (move_renames_entry None foods 0 (-1)
              {| key := 0; captured := Some "Bubble Tea" |} foods_consistent
              eq_refl H0) as [Hn1 _].
  destruct (move_renames_entry None foods 0 9
              {| key := 0; captured := Some "Bubble Tea" |} foods_consistent
              eq_refl H0) as [Hn2 _].
  rewrite Hn1, Hn2. split; reflexivity.
Defined.

Lemma entry_names_distinct_foods :
  fields foods !! 0%nat = Some (Some {| key := 0; captured := Some "Bubble Tea" |})
  /\ fields foods !! 2%nat
     = Some (Some {| key := 2; captured := Some "Scallion Pancake" |})
  /\ 0%nat <> 2%nat
  /\ fst (entry_name {| key := 0; captured := Some "Bubble Tea" |} foods)
     <> fst (entry_name {| key := 2; captured := Some "Scallion Pancake" |} foods).
Proof.
  assert (0%nat <> 2%nat) as Hne by discriminate.
  split; [reflexivity|]. split; [reflexivity|]. split; [exact Hne|].
  apply (entry_names_distinct None foods 0 2
           {| key := 0; captured := Some "Bubble Tea" |}
           {| key := 2; captured := Some "Scallion Pancake" |}
           foods_consistent eq_refl eq_refl Hne).
Defined.

Lemma events_keep_consistent_foods :
  consistent foods
  /\ fst (run_all None
           [Call (Move 0 2);
            Write {| key := 9; captured := Some "Gone" |} (Some "Tea");
            Call (Remove (Some (-7)));
            Reset;
            Call (Update 1 (Some "Rice"))] foods)
     = Normal tt.
Proof.
  split; [exact foods_consistent|].
  apply (events_keep_consistent None foods _ foods_consistent).
Defined.
